(** * magic_square.py: completing an associative magic square with an SMT solver

    A shallow embedding of [src/magic_square.py].  The program builds a list
    of linear-integer assertions over the variables [cell_i_j] and
    [associative_sum], adds them to one module-level solver, asks the solver
    for a verdict and decodes the model into a grid.

    The solver (Z3) is an external library: it is a parameter of the
    development.  What is assumed about it is stated where it is used, as
    hypotheses of a Section, and every such hypothesis is discharged on a
    concrete executable solver ([oracle_check]) in the witnesses. *)

From Stdlib Require Import ZArith List String Ascii Bool Lia DecimalString
  Permutation.
Import ListNotations.
Open Scope Z_scope.
Set Warnings "-register-all".

(** ** Python values the program uses *)

(** The only exception the encoder itself can raise is an out-of-range
    subscript. *)
Inductive exn : Type := IndexError.

Inductive res (A : Type) : Type :=
| Ok (a : A)
| Raise (e : exn).
Arguments Ok {A} a.
Arguments Raise {A} e.

Definition bindR {A B} (r : res A) (k : A -> res B) : res B :=
  match r with
  | Ok a => k a
  | Raise e => Raise e
  end.

Notation "x <- e ;; k" := (bindR e (fun x => k))
  (at level 61, e at next level, right associativity).

(** A list comprehension whose body can raise: elements are evaluated from
    left to right and the first exception wins. *)
Fixpoint mapR {A B} (f : A -> res B) (l : list A) : res (list B) :=
  match l with
  | [] => Ok []
  | a :: r => b <- f a ;; bs <- mapR f r ;; Ok (b :: bs)
  end.

(** [range(lo, hi)]; [range(n)] is [range 0 n].  Empty when [hi <= lo]. *)
Definition range (lo hi : Z) : list Z :=
  map (fun k => lo + Z.of_nat k) (seq 0 (Z.to_nat (hi - lo))).

(** [l[i]] on a Python list: a negative subscript counts from the end, and a
    subscript outside [-len, len) raises IndexError. *)
Definition getitem {A} (l : list A) (i : Z) : res A :=
  let len := Z.of_nat (List.length l) in
  let k := if i <? 0 then i + len else i in
  if (0 <=? k) && (k <? len) then
    match nth_error l (Z.to_nat k) with
    | Some a => Ok a
    | None => Raise IndexError
    end
  else Raise IndexError.

(** [l[i][j]] *)
Definition getitem2 {A} (l : list (list A)) (i j : Z) : res A :=
  row <- getitem l i ;; getitem row j.

(** [str(n)] for a Python int. *)
Definition str (n : Z) : string := NilZero.string_of_int (Z.to_int n).

(** [str(row)] for a list of ints: [[5, 6, 1, 10]]. *)
Definition str_list (row : list Z) : string :=
  ("[" ++ String.concat ", " (map str row) ++ "]")%string.

Definition grid : Type := list (list Z).

(** ** The fragment of Z3's expression language the program builds *)

(** [Int(f'cell_{i}_{j}')] and [Int('associative_sum')].  Z3 identifies a
    constant by its name, and the decimal names [cell_i_j] are distinct for
    distinct (i, j), so a variable is its pair of indices. *)
Inductive var : Type :=
| Cell (i j : Z)
| AssociativeSum.

Definition var_name (v : var) : string :=
  match v with
  | Cell i j => ("cell_" ++ str i ++ "_" ++ str j)%string
  | AssociativeSum => "associative_sum"%string
  end.

Inductive term : Type :=
| Const (v : var)            (* an Int constant *)
| Num (z : Z)                (* a Python int coerced to IntVal *)
| Plus (a b : term)          (* a + b *)
| SumOf (ts : list term).    (* Sum([...]) *)

Inductive formula : Type :=
| FBool (b : bool)               (* a Python bool coerced to BoolVal *)
| FGe (a b : term)               (* a >= b; [1 <= x] reflects to [x >= 1] *)
| FLe (a b : term)               (* a <= b *)
| FEq (a b : term)               (* a == b *)
| FAnd (p q : formula)           (* And(p, q) *)
| FIf (c p q : formula).         (* If(c, p, q) *)

(** A model gives every declared constant an integer. *)
Definition model : Type := var -> Z.

Fixpoint eval (m : model) (t : term) : Z :=
  match t with
  | Const v => m v
  | Num z => z
  | Plus a b => eval m a + eval m b
  | SumOf ts =>
      (fix go (l : list term) : Z :=
         match l with
         | [] => 0
         | t :: r => eval m t + go r
         end) ts
  end.

Fixpoint holds (m : model) (f : formula) : bool :=
  match f with
  | FBool b => b
  | FGe a b => eval m b <=? eval m a
  | FLe a b => eval m a <=? eval m b
  | FEq a b => eval m a =? eval m b
  | FAnd p q => holds m p && holds m q
  | FIf c p q => if holds m c then holds m p else holds m q
  end.

(** [m] satisfies every assertion of [cs]. *)
Definition models (m : model) (cs : list formula) : bool :=
  forallb (holds m) cs.

(** [solver.check()] together with [solver.model()]: the model exists only
    with the verdict sat. *)
Inductive check_result : Type :=
| sat (m : model)
| unsat
| unknown.

Definition str_verdict (v : check_result) : string :=
  match v with
  | sat _ => "sat"
  | unsat => "unsat"
  | unknown => "unknown"
  end.

(** ** The state the program works on *)

(** [solver] is the module-level [Solver()]: the assertions added so far.
    [stdout] is what has been printed, one entry per [print] call. *)
Record world : Type := mkWorld {
  solver : list formula;
  stdout : list string
}.

(** At import, before line 91. *)
Definition initial_world : world := mkWorld [] [].

(** A computation reads and writes the world and may raise; what was written
    before an exception stays written. *)
Definition M (A : Type) : Type := world -> res A * world.

Definition ret {A} (a : A) : M A := fun w => (Ok a, w).

Definition bindM {A B} (c : M A) (k : A -> M B) : M B :=
  fun w =>
    match c w with
    | (Ok a, w') => k a w'
    | (Raise e, w') => (Raise e, w')
    end.

Definition lift {A} (r : res A) : M A := fun w => (r, w).

Notation "'let*' x ':=' e 'in' k" := (bindM e (fun x => k))
  (at level 10, x name, e at level 100, k at level 200).

(** [solver.add(fs)] *)
Definition solver_add (fs : list formula) : M unit :=
  fun w => (Ok tt, mkWorld (solver w ++ fs) (stdout w)).

(** [print(s)] *)
Definition print (s : string) : M unit :=
  fun w => (Ok tt, mkWorld (solver w) (stdout w ++ [s])).

(** ** The constraint families of [complete_magic_square] *)

(** line 19 *)
Definition make_square (grid_size : Z) : list (list term) :=
  map (fun i => map (fun j => Const (Cell i j)) (range 0 grid_size))
      (range 0 grid_size).

(** The pairs of a comprehension [for i in range(n) for j in range(n)]. *)
Definition positions (grid_size : Z) : list (Z * Z) :=
  list_prod (range 0 grid_size) (range 0 grid_size).

(** lines 22-23 *)
Definition constraints (grid_size : Z) (square : list (list term))
  : res (list formula) :=
  mapR (fun '(i, j) =>
          lo <- getitem2 square i j ;;
          hi <- getitem2 square i j ;;
          Ok (FAnd (FGe lo (Num 1)) (FLe hi (Num (grid_size ^ 2)))))
       (positions grid_size).

(** line 26 *)
Definition magic_constant (square : list (list term)) : res term :=
  row0 <- getitem square 0 ;; Ok (SumOf row0).

(** lines 29-31 *)
Definition row_constraints (grid_size : Z) (square : list (list term))
  (magic : term) : res (list formula) :=
  mapR (fun i => row <- getitem square i ;; Ok (FEq (SumOf row) magic))
       (range 0 grid_size).

(** lines 34-36 *)
Definition column_constraints (grid_size : Z) (square : list (list term))
  (magic : term) : res (list formula) :=
  mapR (fun i =>
          col <- mapR (fun j => getitem2 square j i) (range 0 grid_size) ;;
          Ok (FEq (SumOf col) magic))
       (range 0 grid_size).

(** lines 39-42 *)
Definition diagonal_constraints (grid_size : Z) (square : list (list term))
  (magic : term) : res (list formula) :=
  d1 <- mapR (fun i => getitem2 square i i) (range 0 grid_size) ;;
  d2 <- mapR (fun i => getitem2 square (grid_size - i - 1) i)
             (range 0 grid_size) ;;
  Ok [FEq (SumOf d1) magic; FEq (SumOf d2) magic].

(** line 45 *)
Definition associative_sum : term := Const AssociativeSum.

(** line 46 *)
Definition associative_row_constraints (grid_size : Z)
  (square : list (list term)) : res (list formula) :=
  mapR (fun i =>
          a <- getitem2 square 0 i ;;
          b <- getitem2 square (grid_size - 1) (grid_size - i - 1) ;;
          Ok (FEq (Plus a b) associative_sum))
       (range 0 grid_size).

(** line 47 *)
Definition associative_column_constraints (grid_size : Z)
  (square : list (list term)) : res (list formula) :=
  mapR (fun i =>
          a <- getitem2 square i 0 ;;
          b <- getitem2 square (grid_size - i - 1) (grid_size - 1) ;;
          Ok (FEq (Plus a b) associative_sum))
       (range 1 (grid_size - 1)).

(** lines 60-63 *)
Definition incomplete_square_constraints (grid_size : Z)
  (square : list (list term)) (incomplete_square : grid) : res (list formula) :=
  mapR (fun '(i, j) =>
          g <- getitem2 incomplete_square i j ;;
          x <- getitem2 square i j ;;
          g' <- getitem2 incomplete_square i j ;;
          Ok (FIf (FBool (negb (g =? 0))) (FEq x (Num g')) (FBool true)))
       (positions grid_size).

(** Everything the first [solver.add] (lines 50-57) receives. *)
Definition structural_constraints (grid_size : Z) : res (list formula) :=
  let square := make_square grid_size in
  c <- constraints grid_size square ;;
  magic <- magic_constant square ;;
  rows <- row_constraints grid_size square magic ;;
  cols <- column_constraints grid_size square magic ;;
  diags <- diagonal_constraints grid_size square magic ;;
  arows <- associative_row_constraints grid_size square ;;
  acols <- associative_column_constraints grid_size square ;;
  Ok (c ++ rows ++ cols ++ diags ++ arows ++ acols).

(** line 71: [model.evaluate(square[i][j]).as_long()] for every cell.  Every
    cell constant occurs in the assertions (in its range assertion), so the
    model binds it and [evaluate] yields a numeral: [as_long] is the value
    the model gives. *)
Definition decode (grid_size : Z) (square : list (list term)) (m : model)
  : res grid :=
  mapR (fun i =>
          mapR (fun j => x <- getitem2 square i j ;; Ok (eval m x))
               (range 0 grid_size))
       (range 0 grid_size).

(** ** The program, over an arbitrary solver *)

Section Encoder.

(** The verdict (and model) the solver gives for a list of assertions, and
    the text [model.sexpr()] renders. *)
Variable check : list formula -> check_result.
Variable sexpr : model -> string.

(** [solver.check()] *)
Definition solver_check : M check_result :=
  fun w => (Ok (check (solver w)), w).

(** lines 17-80 *)
Definition complete_magic_square (grid_size : Z) (incomplete_square : grid)
  : M (option grid) :=
  let square := make_square grid_size in
  let* cs := lift (structural_constraints grid_size) in
  let* _ := solver_add cs in
  let* given := lift (incomplete_square_constraints grid_size square
                                                    incomplete_square) in
  let* _ := solver_add given in
  let* verdict := solver_check in
  match verdict with
  | sat m =>
      let* magic_square_solution := lift (decode grid_size square m) in
      let* again := solver_check in
      let* _ := print ("Satisfiability: " ++ str_verdict again) in
      let* _ := print ("SMT-LIB2 format:  " ++ sexpr m) in
      ret (Some magic_square_solution)
  | _ => ret None
  end.

(** lines 94-99: a non-empty list is true, [None] and [[]] are false. *)
Definition visualise (grid_size : Z) (magic_square_solution : option grid)
  : M unit :=
  match magic_square_solution with
  | Some (r :: rows) =>
      let* _ := print ("Magic Square (" ++ str grid_size ++ "x"
                         ++ str grid_size ++ "):") in
      fold_left (fun acc row => let* _ := acc in print (str_list row))
                (r :: rows) (ret tt)
  | _ =>
      print ("No solution found for " ++ str grid_size ++ "x"
               ++ str grid_size ++ " Magic Square.")
  end.

(** lines 82-99: what runs at import. *)
Definition grid_size : Z := 4.

Definition incomplete_square : grid :=
  [ [0; 0; 1; 0];
    [0; 5; 0; 0];
    [0; 0; 0; 0];
    [0; 0; 0; 6] ].

Definition main : M unit :=
  let* magic_square_solution :=
    complete_magic_square grid_size incomplete_square in
  visualise grid_size magic_square_solution.

End Encoder.

(** ** A concrete solver, to run the program *)

(** The valuation that reads the cells off a grid. *)
Definition cell (g : grid) (i j : Z) : Z :=
  nth (Z.to_nat j) (nth (Z.to_nat i) g []) 0.

Definition model_of_grid (g : grid) (s : Z) : model :=
  fun v =>
    match v with
    | Cell i j => cell g i j
    | AssociativeSum => s
    end.

(** A solver that tries a fixed list of candidate valuations and answers sat
    with the first one that satisfies every assertion; it gives up
    otherwise.  It never answers sat wrongly. *)
Definition oracle_check (candidates : list model) (cs : list formula)
  : check_result :=
  match find (fun m => models m cs) candidates with
  | Some m => sat m
  | None => unknown
  end.

Definition define_fun (m : model) (v : var) : string :=
  ("(define-fun " ++ var_name v ++ " () Int" ++ String (ascii_of_nat 10) "  "
     ++ str (m v) ++ ")")%string.

(** A rendering of the sixteen cells and the associative sum. *)
Definition oracle_sexpr (m : model) : string :=
  String.concat (String (ascii_of_nat 10) "")
    (map (define_fun m)
         (map (fun '(i, j) => Cell i j) (positions 4) ++ [AssociativeSum])).

(** The grid printed at the end of the source file, with its associative
    sum. *)
Definition recorded_solution : grid :=
  [ [5; 6; 1; 10];
    [6; 5; 10; 1];
    [10; 1; 6; 5];
    [1; 10; 5; 6] ].

Definition recorded_model : model := model_of_grid recorded_solution 11.

(** ** What is said about grids *)

Definition Zsum (l : list Z) : Z := fold_right Z.add 0 l.

Definition row_sum (g : grid) (i : Z) : Z := Zsum (nth (Z.to_nat i) g []).

Definition column_sum (g : grid) (j : Z) : Z :=
  Zsum (map (fun row => nth (Z.to_nat j) row 0) g).

Definition diagonal_sum (g : grid) : Z :=
  let n := Z.of_nat (List.length g) in
  Zsum (map (fun i => cell g i i) (range 0 n)).

Definition antidiagonal_sum (g : grid) : Z :=
  let n := Z.of_nat (List.length g) in
  Zsum (map (fun i => cell g (n - i - 1) i) (range 0 n)).

(** [g] has [n] rows of [n] entries. *)
Definition square_shape (n : Z) (g : grid) : Prop :=
  Z.of_nat (List.length g) = n /\
  Forall (fun row => Z.of_nat (List.length row) = n) g.

(** The grid a model decodes to. *)
Definition grid_of (m : model) (n : Z) : grid :=
  map (fun i => map (fun j => m (Cell i j)) (range 0 n)) (range 0 n).

(** What a call returns: a value or an exception, and the world after. *)
Definition returns {A} (c : M A) (w : world) (a : A) : Prop :=
  fst (c w) = Ok a.

Definition raises {A} (c : M A) (w : world) : Prop :=
  exists e, fst (c w) = Raise e.

(** ** The assertions of a call, family by family *)

(** The formulas below are what each comprehension of the source evaluates
    to once its subscripts are resolved; the lemmas [*_eq] further down
    prove that they are. *)
Definition row_vars (n i : Z) : list term :=
  map (fun j => Const (Cell i j)) (range 0 n).

Definition column_vars (n j : Z) : list term :=
  map (fun i => Const (Cell i j)) (range 0 n).

Definition range_formula (n : Z) (p : Z * Z) : formula :=
  let '(i, j) := p in
  FAnd (FGe (Const (Cell i j)) (Num 1)) (FLe (Const (Cell i j)) (Num (n ^ 2))).

Definition row_formula (n i : Z) : formula :=
  FEq (SumOf (row_vars n i)) (SumOf (row_vars n 0)).

Definition column_formula (n j : Z) : formula :=
  FEq (SumOf (column_vars n j)) (SumOf (row_vars n 0)).

Definition diagonal_formula (n : Z) : formula :=
  FEq (SumOf (map (fun i => Const (Cell i i)) (range 0 n)))
      (SumOf (row_vars n 0)).

Definition antidiagonal_formula (n : Z) : formula :=
  FEq (SumOf (map (fun i => Const (Cell (n - i - 1) i)) (range 0 n)))
      (SumOf (row_vars n 0)).

Definition associative_row_formula (n i : Z) : formula :=
  FEq (Plus (Const (Cell 0 i)) (Const (Cell (n - 1) (n - i - 1))))
      associative_sum.

Definition associative_column_formula (n i : Z) : formula :=
  FEq (Plus (Const (Cell i 0)) (Const (Cell (n - i - 1) (n - 1))))
      associative_sum.

Definition given_formula (g : grid) (p : Z * Z) : formula :=
  let '(i, j) := p in
  FIf (FBool (negb (cell g i j =? 0)))
      (FEq (Const (Cell i j)) (Num (cell g i j))) (FBool true).

(** The argument of the first [solver.add] (lines 50-57), in order. *)
Definition structural (n : Z) : list formula :=
  map (range_formula n) (positions n)
  ++ map (row_formula n) (range 0 n)
  ++ map (column_formula n) (range 0 n)
  ++ [diagonal_formula n; antidiagonal_formula n]
  ++ map (associative_row_formula n) (range 0 n)
  ++ map (associative_column_formula n) (range 1 (n - 1)).

(** The argument of the second [solver.add] (line 65). *)
Definition given (n : Z) (g : grid) : list formula :=
  map (given_formula g) (positions n).

(** What the solver is asked: all that was asserted before the call, then
    the call's own assertions. *)
Definition query (w : world) (n : Z) (g : grid) : list formula :=
  (solver w ++ structural n) ++ given n g.

(** [associative_column_constraints] is built without an exception and holds
    the column equation of index [i] exactly when [lo <= i < hi]. *)
Definition column_family_indices (n lo hi : Z) : Prop :=
  exists l,
    associative_column_constraints n (make_square n) = Ok l /\
    forall i, In (associative_column_formula n i) l <-> lo <= i < hi.

(** ** What is assumed of the solver *)

(** The one property of the solver the development relies on for the results
    about returned grids: a model it hands out satisfies the assertions. *)
Definition sat_sound (check : list formula -> check_result) : Prop :=
  forall cs m, check cs = sat m -> models m cs = true.

Definition satisfiable (cs : list formula) : Prop :=
  exists m, models m cs = true.

(** The solver answers sat on [cs] whenever [cs] has a model: it neither
    gives up (unknown) nor wrongly answers unsat there. *)
Definition decides (check : list formula -> check_result)
  (cs : list formula) : Prop :=
  satisfiable cs -> exists m, check cs = sat m.

(** ** The program around the call *)

(** Lines 91-99 for any size and input: solve, then print. *)
Definition solve_and_visualise
  (check : list formula -> check_result) (sexpr : model -> string)
  (n : Z) (g : grid) : M unit :=
  let* magic_square_solution := complete_magic_square check sexpr n g in
  visualise n magic_square_solution.

(** The text of line 99. *)
Definition no_solution_message (n : Z) : string :=
  ("No solution found for " ++ str n ++ "x" ++ str n ++ " Magic Square.")%string.

(** The text of line 95. *)
Definition solution_header (n : Z) : string :=
  ("Magic Square (" ++ str n ++ "x" ++ str n ++ "):")%string.

(** The text the specification quotes. *)
Definition quoted_no_solution_message (n : Z) : string :=
  ("no solution found for " ++ str n ++ "x" ++ str n)%string.

(** ** Inputs, valuations and solvers used as examples *)

(** The candidate solver that knows the grid recorded in the source. *)
Definition reference_check : list formula -> check_result :=
  oracle_check [recorded_model].

(** A 3x3 input whose corner and centre cannot both be kept: the centre of a
    3x3 grid with equal row, column and diagonal sums is a third of the
    magic constant, so a centre of 1 forces every cell to 1. *)
Definition contradictory_square : grid :=
  [ [2; 0; 0];
    [0; 1; 0];
    [0; 0; 0] ].

(** Every cell the same value, and the associative sum twice that value. *)
Definition constant_model (c : Z) : model :=
  fun v =>
    match v with
    | Cell _ _ => c
    | AssociativeSum => c + c
    end.

(** A second 4x4 puzzle: a 7 where the first one has its 1. *)
Definition second_square : grid :=
  [ [0; 0; 7; 0];
    [0; 0; 0; 0];
    [0; 0; 0; 0];
    [0; 0; 0; 0] ].

Definition two_candidates_check : list formula -> check_result :=
  oracle_check [recorded_model; constant_model 7].

(** A 6x6 grid that meets every assertion of the encoding although its
    inner cells (1,1) and (4,4) add up to 2 and its corners to 4. *)
Definition six_by_six : grid :=
  [ [2; 2; 2; 2; 2; 2];
    [2; 1; 1; 3; 3; 2];
    [2; 1; 3; 1; 3; 2];
    [2; 3; 1; 3; 1; 2];
    [2; 3; 3; 1; 1; 2];
    [2; 2; 2; 2; 2; 2] ].

(** ** Inputs of any shape *)

(** The input has an entry at every position the call reads: at least
    [n] rows, and at least [n] entries in each of the first [n] rows.  Rows
    and entries beyond are never read. *)
Definition covers (n : Z) (g : grid) : bool :=
  (n <=? Z.of_nat (List.length g))
  && forallb (fun i => n <=? Z.of_nat (List.length (nth (Z.to_nat i) g [])))
             (range 0 n).

(** The top-left [n] x [n] block of an input. *)
Definition block (n : Z) (g : grid) : grid :=
  map (fun i => map (fun j => cell g i j) (range 0 n)) (range 0 n).

(** What a grid must satisfy to be an answer to the puzzle [g] of size [n],
    read off the returned grid alone.  The associative sum is not part of
    the grid; it is the pair sum of the two corners. *)
Definition pair_sum (n : Z) (sol : grid) : Z :=
  cell sol 0 0 + cell sol (n - 1) (n - 1).

Definition is_solution (n : Z) (g sol : grid) : bool :=
  let idx := range 0 n in
  let magic := Zsum (map (fun j => cell sol 0 j) idx) in
  forallb (fun '(i, j) => (1 <=? cell sol i j) && (cell sol i j <=? n ^ 2))
          (positions n)
  && forallb (fun i => Zsum (map (fun j => cell sol i j) idx) =? magic) idx
  && forallb (fun j => Zsum (map (fun i => cell sol i j) idx) =? magic) idx
  && (Zsum (map (fun i => cell sol i i) idx) =? magic)
  && (Zsum (map (fun i => cell sol (n - i - 1) i) idx) =? magic)
  && forallb (fun i => cell sol 0 i + cell sol (n - 1) (n - i - 1)
                       =? pair_sum n sol) idx
  && forallb (fun i => cell sol i 0 + cell sol (n - i - 1) (n - 1)
                       =? pair_sum n sol) (range 1 (n - 1))
  && forallb (fun '(i, j) => (cell g i j =? 0) || (cell sol i j =? cell g i j))
             (positions n).

(** The all-zero input of size [n]: nothing given. *)
Definition blank_square (n : Z) : grid :=
  map (fun _ => map (fun _ => 0) (range 0 n)) (range 0 n).

(** ** Ranges, subscripts and comprehensions *)

Lemma in_range (lo hi i : Z) : In i (range lo hi) <-> lo <= i < hi.
Proof.
  unfold range. rewrite in_map_iff. split.
  - intros [k [<- Hk]]. apply in_seq in Hk. lia.
  - intros H. exists (Z.to_nat (i - lo)). split; [lia|].
    apply in_seq. lia.
Qed.

Lemma length_range (lo hi : Z) :
  List.length (range lo hi) = Z.to_nat (hi - lo).
Proof. unfold range. now rewrite length_map, length_seq. Qed.

Lemma nth_error_range (n i : Z) :
  0 <= i < n -> nth_error (range 0 n) (Z.to_nat i) = Some i.
Proof.
  intros H. unfold range.
  rewrite nth_error_map, nth_error_seq.
  destruct (Nat.ltb_spec (Z.to_nat i) (Z.to_nat (n - 0))) as [_|Hge]; [|lia].
  simpl. f_equal. lia.
Qed.

Lemma nth_map_range {A} (f : Z -> A) (d : A) (n i : Z) :
  0 <= i < n -> nth (Z.to_nat i) (map f (range 0 n)) d = f i.
Proof.
  intros H. apply nth_error_nth.
  now rewrite nth_error_map, nth_error_range.
Qed.

(** A subscript inside the list returns the element: no exception. *)
Lemma getitem_map_range {A} (f : Z -> A) (n i : Z) :
  0 <= i < n -> getitem (map f (range 0 n)) i = Ok (f i).
Proof.
  intros H. unfold getitem.
  rewrite length_map, length_range.
  destruct (Z.ltb_spec i 0) as [Hneg|_]; [lia|].
  replace ((0 <=? i) && (i <? Z.of_nat (Z.to_nat (n - 0)))) with true
    by (symmetry; apply andb_true_iff; split; [apply Z.leb_le|apply Z.ltb_lt]; lia).
  now rewrite nth_error_map, nth_error_range.
Qed.

Lemma getitem_in_bounds {A} (l : list A) (d : A) (i : Z) :
  0 <= i < Z.of_nat (List.length l) ->
  getitem l i = Ok (nth (Z.to_nat i) l d).
Proof.
  intros H. unfold getitem.
  destruct (Z.ltb_spec i 0) as [Hneg|_]; [lia|].
  replace ((0 <=? i) && (i <? Z.of_nat (List.length l))) with true
    by (symmetry; apply andb_true_iff; split; [apply Z.leb_le|apply Z.ltb_lt]; lia).
  destruct (nth_error l (Z.to_nat i)) as [a|] eqn:E.
  - now rewrite (nth_error_nth _ _ d E).
  - apply nth_error_None in E. lia.
Qed.

Lemma mapR_ok {A B} (f : A -> res B) (g : A -> B) (l : list A) :
  (forall a, In a l -> f a = Ok (g a)) -> mapR f l = Ok (map g l).
Proof.
  induction l as [|a l IH]; intros H; simpl; [reflexivity|].
  rewrite (H a (or_introl eq_refl)). simpl.
  rewrite IH by (intros; apply H; now right). reflexivity.
Qed.

Lemma in_positions (n i j : Z) :
  In (i, j) (positions n) <-> 0 <= i < n /\ 0 <= j < n.
Proof. unfold positions. now rewrite in_prod_iff, !in_range. Qed.

(** Every subscript the program takes on [square] is in range. *)
Lemma square_getitem (n i : Z) :
  0 <= i < n ->
  getitem (make_square n) i = Ok (map (fun j => Const (Cell i j)) (range 0 n)).
Proof. intros H. unfold make_square. now rewrite getitem_map_range. Qed.

Lemma square_getitem2 (n i j : Z) :
  0 <= i < n -> 0 <= j < n ->
  getitem2 (make_square n) i j = Ok (Const (Cell i j)).
Proof.
  intros Hi Hj. unfold getitem2. rewrite square_getitem by assumption.
  simpl. now rewrite getitem_map_range.
Qed.

(** Subscripts on a well-shaped input grid. *)
Lemma input_getitem2 (n : Z) (g : grid) (i j : Z) :
  square_shape n g -> 0 <= i < n -> 0 <= j < n ->
  getitem2 g i j = Ok (cell g i j).
Proof.
  intros [Hlen Hrows] Hi Hj. unfold getitem2, cell.
  rewrite (getitem_in_bounds g []) by lia. simpl.
  apply getitem_in_bounds.
  rewrite Forall_forall in Hrows. rewrite Hrows; [lia|].
  apply nth_In. lia.
Qed.

(** ** The assertions each family produces *)

Lemma constraints_eq (n : Z) :
  constraints n (make_square n) = Ok (map (range_formula n) (positions n)).
Proof.
  apply mapR_ok. intros [i j] H. apply in_positions in H as [Hi Hj].
  now rewrite square_getitem2.
Qed.

Lemma magic_constant_eq (n : Z) :
  1 <= n -> magic_constant (make_square n) = Ok (SumOf (row_vars n 0)).
Proof.
  intros H. unfold magic_constant. now rewrite square_getitem by lia.
Qed.

Lemma row_constraints_eq (n : Z) :
  row_constraints n (make_square n) (SumOf (row_vars n 0))
  = Ok (map (row_formula n) (range 0 n)).
Proof.
  apply mapR_ok. intros i H. apply in_range in H.
  now rewrite square_getitem.
Qed.

Lemma column_constraints_eq (n : Z) :
  column_constraints n (make_square n) (SumOf (row_vars n 0))
  = Ok (map (column_formula n) (range 0 n)).
Proof.
  apply mapR_ok. intros j Hj. apply in_range in Hj.
  rewrite (mapR_ok _ (fun i => Const (Cell i j))); [reflexivity|].
  intros i Hi. apply in_range in Hi. now apply square_getitem2.
Qed.

Lemma diagonal_constraints_eq (n : Z) :
  diagonal_constraints n (make_square n) (SumOf (row_vars n 0))
  = Ok [diagonal_formula n; antidiagonal_formula n].
Proof.
  unfold diagonal_constraints.
  rewrite (mapR_ok _ (fun i => Const (Cell i i)))
    by (intros i Hi; apply in_range in Hi; now apply square_getitem2).
  simpl.
  rewrite (mapR_ok _ (fun i => Const (Cell (n - i - 1) i)))
    by (intros i Hi; apply in_range in Hi; apply square_getitem2; lia).
  reflexivity.
Qed.

Lemma associative_row_constraints_eq (n : Z) :
  associative_row_constraints n (make_square n)
  = Ok (map (associative_row_formula n) (range 0 n)).
Proof.
  apply mapR_ok. intros i Hi. apply in_range in Hi.
  now rewrite !square_getitem2 by lia.
Qed.

Lemma associative_column_constraints_eq (n : Z) :
  associative_column_constraints n (make_square n)
  = Ok (map (associative_column_formula n) (range 1 (n - 1))).
Proof.
  apply mapR_ok. intros i Hi. apply in_range in Hi.
  now rewrite !square_getitem2 by lia.
Qed.

Lemma incomplete_square_constraints_eq (n : Z) (g : grid) :
  square_shape n g ->
  incomplete_square_constraints n (make_square n) g
  = Ok (map (given_formula g) (positions n)).
Proof.
  intros Hg. apply mapR_ok. intros [i j] H.
  apply in_positions in H as [Hi Hj].
  now rewrite (input_getitem2 n), square_getitem2.
Qed.

Lemma structural_constraints_eq (n : Z) :
  1 <= n -> structural_constraints n = Ok (structural n).
Proof.
  intros H. unfold structural_constraints.
  rewrite constraints_eq. simpl.
  rewrite magic_constant_eq by assumption. simpl.
  rewrite row_constraints_eq. simpl.
  rewrite column_constraints_eq. simpl.
  rewrite diagonal_constraints_eq. simpl.
  rewrite associative_row_constraints_eq. simpl.
  rewrite associative_column_constraints_eq. reflexivity.
Qed.

(** With no row 0 to sum, line 26 raises before anything is added. *)
Lemma structural_constraints_raises (n : Z) :
  n <= 0 -> structural_constraints n = Raise IndexError.
Proof.
  intros H. unfold structural_constraints.
  rewrite constraints_eq. simpl.
  unfold magic_constant, make_square, getitem.
  rewrite length_map, length_range.
  replace (Z.to_nat (n - 0)) with 0%nat by lia. reflexivity.
Qed.

Lemma decode_eq (n : Z) (m : model) :
  decode n (make_square n) m = Ok (grid_of m n).
Proof.
  apply mapR_ok. intros i Hi. apply in_range in Hi.
  apply mapR_ok. intros j Hj. apply in_range in Hj.
  now rewrite square_getitem2.
Qed.

(** ** What a model of the assertions says about the decoded grid *)

Lemma eval_SumOf (m : model) (ts : list term) :
  eval m (SumOf ts) = Zsum (map (eval m) ts).
Proof.
  induction ts as [|t ts IH]; [reflexivity|].
  simpl in *. now rewrite IH.
Qed.

Lemma eval_sum_vars (m : model) (f : Z -> var) (l : list Z) :
  eval m (SumOf (map (fun k => Const (f k)) l)) = Zsum (map (fun k => m (f k)) l).
Proof. rewrite eval_SumOf, map_map. reflexivity. Qed.

Lemma models_app (m : model) (a b : list formula) :
  models m (a ++ b) = models m a && models m b.
Proof. apply forallb_app. Qed.

Lemma models_in (m : model) (cs : list formula) (f : formula) :
  models m cs = true -> In f cs -> holds m f = true.
Proof. unfold models. rewrite forallb_forall. auto. Qed.

Lemma grid_of_shape (m : model) (n : Z) : 0 <= n -> square_shape n (grid_of m n).
Proof.
  intros H. unfold square_shape, grid_of. split.
  - rewrite length_map, length_range. lia.
  - apply Forall_forall. intros row Hrow.
    apply in_map_iff in Hrow as [i [<- _]].
    rewrite length_map, length_range. lia.
Qed.

Lemma grid_of_row (m : model) (n i : Z) :
  0 <= i < n ->
  nth (Z.to_nat i) (grid_of m n) [] = map (fun j => m (Cell i j)) (range 0 n).
Proof. intros H. unfold grid_of. now rewrite nth_map_range. Qed.

Lemma grid_of_cell (m : model) (n i j : Z) :
  0 <= i < n -> 0 <= j < n -> cell (grid_of m n) i j = m (Cell i j).
Proof.
  intros Hi Hj. unfold cell. rewrite grid_of_row by assumption.
  now rewrite nth_map_range.
Qed.

Lemma grid_of_row_sum (m : model) (n i : Z) :
  0 <= i < n ->
  row_sum (grid_of m n) i = eval m (SumOf (row_vars n i)).
Proof.
  intros H. unfold row_sum, row_vars.
  rewrite grid_of_row by assumption.
  now rewrite (eval_sum_vars m (fun j => Cell i j)).
Qed.

Lemma grid_of_column_sum (m : model) (n j : Z) :
  0 <= j < n ->
  column_sum (grid_of m n) j = eval m (SumOf (column_vars n j)).
Proof.
  intros H. unfold column_sum, column_vars, grid_of.
  rewrite (eval_sum_vars m (fun i => Cell i j)), map_map.
  f_equal. apply map_ext. intros i. now rewrite nth_map_range.
Qed.

Lemma grid_of_diagonal_sum (m : model) (n : Z) :
  0 <= n ->
  diagonal_sum (grid_of m n)
  = eval m (SumOf (map (fun i => Const (Cell i i)) (range 0 n))).
Proof.
  intros H. unfold diagonal_sum.
  destruct (grid_of_shape m n H) as [-> _].
  rewrite (eval_sum_vars m (fun i => Cell i i)).
  f_equal. apply map_ext_in. intros i Hi. apply in_range in Hi.
  now apply grid_of_cell.
Qed.

Lemma grid_of_antidiagonal_sum (m : model) (n : Z) :
  0 <= n ->
  antidiagonal_sum (grid_of m n)
  = eval m (SumOf (map (fun i => Const (Cell (n - i - 1) i)) (range 0 n))).
Proof.
  intros H. unfold antidiagonal_sum.
  destruct (grid_of_shape m n H) as [-> _].
  rewrite (eval_sum_vars m (fun i => Cell (n - i - 1) i)).
  f_equal. apply map_ext_in. intros i Hi. apply in_range in Hi.
  apply grid_of_cell; lia.
Qed.

(** Membership of each family in the assertions of a call. *)
Lemma in_structural_range (n i j : Z) :
  0 <= i < n -> 0 <= j < n -> In (range_formula n (i, j)) (structural n).
Proof.
  intros Hi Hj. unfold structural. apply in_or_app. left.
  apply in_map. now apply in_positions.
Qed.

Lemma in_structural_row (n i : Z) :
  0 <= i < n -> In (row_formula n i) (structural n).
Proof.
  intros Hi. unfold structural. apply in_or_app. right.
  apply in_or_app. left. apply in_map. now apply in_range.
Qed.

Lemma in_structural_column (n j : Z) :
  0 <= j < n -> In (column_formula n j) (structural n).
Proof.
  intros Hj. unfold structural. do 2 (apply in_or_app; right).
  apply in_or_app. left. apply in_map. now apply in_range.
Qed.

Lemma in_structural_diagonal (n : Z) : In (diagonal_formula n) (structural n).
Proof.
  unfold structural. do 3 (apply in_or_app; right).
  apply in_or_app. left. now left.
Qed.

Lemma in_structural_antidiagonal (n : Z) :
  In (antidiagonal_formula n) (structural n).
Proof.
  unfold structural. do 3 (apply in_or_app; right).
  apply in_or_app. left. right. now left.
Qed.

Lemma in_structural_associative_row (n i : Z) :
  0 <= i < n -> In (associative_row_formula n i) (structural n).
Proof.
  intros Hi. unfold structural. do 4 (apply in_or_app; right).
  apply in_or_app. left. apply in_map. now apply in_range.
Qed.

Lemma in_structural_associative_column (n i : Z) :
  1 <= i < n - 1 -> In (associative_column_formula n i) (structural n).
Proof.
  intros Hi. unfold structural. do 5 (apply in_or_app; right).
  apply in_map. now apply in_range.
Qed.

Lemma in_given (n : Z) (g : grid) (i j : Z) :
  0 <= i < n -> 0 <= j < n -> In (given_formula g (i, j)) (given n g).
Proof. intros Hi Hj. apply in_map. now apply in_positions. Qed.

(** ** Running [complete_magic_square] *)

Lemma mapR_inv {A B} (f : A -> res B) (l : list A) (bs : list B) :
  mapR f l = Ok bs -> forall a, In a l -> exists b, f a = Ok b /\ In b bs.
Proof.
  revert bs. induction l as [|x l IH]; intros bs H a Ha; [contradiction|].
  simpl in H. destruct (f x) as [b|] eqn:Ex; [|discriminate]. simpl in H.
  destruct (mapR f l) as [bs'|] eqn:El; [|discriminate]. simpl in H.
  injection H as <-. destruct Ha as [<-|Ha].
  - exists b. split; [assumption|now left].
  - destruct (IH bs' eq_refl a Ha) as [b' [Hb' Hin]].
    exists b'. split; [assumption|now right].
Qed.

Lemma getitem_nonneg {A} (l : list A) (d : A) (i : Z) (a : A) :
  0 <= i -> getitem l i = Ok a -> nth (Z.to_nat i) l d = a.
Proof.
  intros Hi. unfold getitem.
  destruct (Z.ltb_spec i 0) as [Hneg|_]; [lia|].
  destruct ((0 <=? i) && (i <? Z.of_nat (List.length l))); [|discriminate].
  destruct (nth_error l (Z.to_nat i)) as [x|] eqn:E; [|discriminate].
  intros H. injection H as <-. now apply nth_error_nth.
Qed.

Lemma getitem2_nonneg (g : grid) (i j v : Z) :
  0 <= i -> 0 <= j -> getitem2 g i j = Ok v -> cell g i j = v.
Proof.
  intros Hi Hj. unfold getitem2, cell.
  destruct (getitem g i) as [row|] eqn:E; [|discriminate]. simpl.
  rewrite (getitem_nonneg g [] i row Hi E).
  now apply getitem_nonneg.
Qed.

(** When the given-cell comprehension completes, it has produced the
    assertion of every position. *)
Lemma incomplete_square_constraints_inv (n : Z) (g : grid) (gs : list formula)
  (i j : Z) :
  incomplete_square_constraints n (make_square n) g = Ok gs ->
  0 <= i < n -> 0 <= j < n ->
  In (given_formula g (i, j)) gs.
Proof.
  intros H Hi Hj.
  destruct (mapR_inv _ _ _ H (i, j)) as [b [Hb Hin]];
    [now apply in_positions|].
  simpl in Hb.
  destruct (getitem2 g i j) as [v|] eqn:Ev; [|discriminate]. simpl in Hb.
  rewrite square_getitem2 in Hb by assumption. simpl in Hb.
  injection Hb as <-.
  apply getitem2_nonneg in Ev; [|lia|lia]. simpl. now rewrite Ev.
Qed.

Section Run.

Variable check : list formula -> check_result.
Variable sexpr : model -> string.

(** The whole effect of a call on a well-shaped input. *)
Lemma complete_magic_square_run (n : Z) (g : grid) (w : world) :
  1 <= n -> square_shape n g ->
  complete_magic_square check sexpr n g w =
  match check (query w n g) with
  | sat m =>
      (Ok (Some (grid_of m n)),
       mkWorld (query w n g)
               ((stdout w ++ ["Satisfiability: sat"%string])
                  ++ [("SMT-LIB2 format:  " ++ sexpr m)%string]))
  | _ => (Ok None, mkWorld (query w n g) (stdout w))
  end.
Proof.
  intros Hn Hg.
  unfold complete_magic_square, bindM, lift, solver_add, solver_check, query.
  rewrite structural_constraints_eq by assumption. simpl.
  rewrite incomplete_square_constraints_eq by assumption.
  fold (given n g).
  destruct (check ((solver w ++ structural n) ++ given n g)) as [m| |] eqn:E;
    try reflexivity.
  rewrite decode_eq. unfold print, ret. simpl. rewrite E. reflexivity.
Qed.

(** A returned grid, on any input, is the decoding of a model the solver
    gave for the earlier assertions, the structural ones and the given
    cells. *)
Lemma complete_magic_square_some (n : Z) (g : grid) (w : world) (sol : grid) :
  returns (complete_magic_square check sexpr n g) w (Some sol) ->
  1 <= n /\
  exists gs m,
    incomplete_square_constraints n (make_square n) g = Ok gs /\
    check ((solver w ++ structural n) ++ gs) = sat m /\
    sol = grid_of m n.
Proof.
  unfold returns, complete_magic_square, bindM, lift, solver_add, solver_check.
  destruct (Z_le_gt_dec n 0) as [Hle|Hgt].
  - rewrite structural_constraints_raises by assumption. discriminate.
  - rewrite structural_constraints_eq by lia. simpl.
    destruct (incomplete_square_constraints n (make_square n) g) as [gs|e]
      eqn:Eg; [|discriminate]. cbn [solver stdout fst].
    destruct (check ((solver w ++ structural n) ++ gs)) as [m| |] eqn:E;
      try discriminate.
    rewrite decode_eq. unfold print, ret. simpl.
    intros H. injection H as <-. split; [lia|].
    exists gs, m. auto.
Qed.

Hypothesis check_sound : sat_sound check.

(** Under a sound solver the model behind a returned grid satisfies the
    call's structural assertions and every given-cell assertion. *)
Lemma returned_model (n : Z) (g : grid) (w : world) (sol : grid) :
  returns (complete_magic_square check sexpr n g) w (Some sol) ->
  1 <= n /\
  exists m,
    sol = grid_of m n /\
    models m (structural n) = true /\
    (forall i j, 0 <= i < n -> 0 <= j < n ->
                 holds m (given_formula g (i, j)) = true).
Proof.
  intros H. apply complete_magic_square_some in H
    as [Hn [gs [m [Hgs [Hc ->]]]]].
  split; [assumption|]. exists m. split; [reflexivity|].
  apply check_sound in Hc. rewrite !models_app in Hc.
  apply andb_true_iff in Hc as [Hc Hgiven].
  apply andb_true_iff in Hc as [_ Hstruct].
  split; [assumption|]. intros i j Hi Hj.
  apply (models_in m gs); [assumption|].
  now apply (incomplete_square_constraints_inv n).
Qed.

End Run.

(** ** What the assertions mean for a model *)

Section ModelFacts.

Variable m : model.
Variable n : Z.
Hypothesis n_pos : 1 <= n.
Hypothesis m_structural : models m (structural n) = true.

Lemma model_range (i j : Z) :
  0 <= i < n -> 0 <= j < n -> 1 <= m (Cell i j) <= n ^ 2.
Proof.
  intros Hi Hj.
  pose proof (models_in _ _ _ m_structural (in_structural_range n i j Hi Hj)) as H.
  simpl in H. apply andb_true_iff in H as [H1 H2].
  apply Z.leb_le in H1, H2. lia.
Qed.

Lemma model_row (i : Z) :
  0 <= i < n -> row_sum (grid_of m n) i = row_sum (grid_of m n) 0.
Proof.
  intros Hi.
  pose proof (models_in _ _ _ m_structural (in_structural_row n i Hi)) as H.
  unfold row_formula in H. cbn [holds] in H. apply Z.eqb_eq in H.
  now rewrite !grid_of_row_sum by lia.
Qed.

Lemma model_column (j : Z) :
  0 <= j < n -> column_sum (grid_of m n) j = row_sum (grid_of m n) 0.
Proof.
  intros Hj.
  pose proof (models_in _ _ _ m_structural (in_structural_column n j Hj)) as H.
  unfold column_formula in H. cbn [holds] in H. apply Z.eqb_eq in H.
  now rewrite grid_of_column_sum, grid_of_row_sum by lia.
Qed.

Lemma model_diagonal : diagonal_sum (grid_of m n) = row_sum (grid_of m n) 0.
Proof.
  pose proof (models_in _ _ _ m_structural (in_structural_diagonal n)) as H.
  unfold diagonal_formula in H. cbn [holds] in H. apply Z.eqb_eq in H.
  now rewrite grid_of_diagonal_sum, grid_of_row_sum by lia.
Qed.

Lemma model_antidiagonal :
  antidiagonal_sum (grid_of m n) = row_sum (grid_of m n) 0.
Proof.
  pose proof (models_in _ _ _ m_structural (in_structural_antidiagonal n)) as H.
  unfold antidiagonal_formula in H. cbn [holds] in H. apply Z.eqb_eq in H.
  now rewrite grid_of_antidiagonal_sum, grid_of_row_sum by lia.
Qed.

Lemma model_associative_row (i : Z) :
  0 <= i < n ->
  m (Cell 0 i) + m (Cell (n - 1) (n - i - 1)) = m AssociativeSum.
Proof.
  intros Hi.
  pose proof (models_in _ _ _ m_structural
                (in_structural_associative_row n i Hi)) as H.
  simpl in H. now apply Z.eqb_eq in H.
Qed.

Lemma model_associative_column (i : Z) :
  1 <= i < n - 1 ->
  m (Cell i 0) + m (Cell (n - i - 1) (n - 1)) = m AssociativeSum.
Proof.
  intros Hi.
  pose proof (models_in _ _ _ m_structural
                (in_structural_associative_column n i Hi)) as H.
  simpl in H. now apply Z.eqb_eq in H.
Qed.

End ModelFacts.

Lemma model_given (m : model) (g : grid) (i j : Z) :
  holds m (given_formula g (i, j)) = true ->
  cell g i j <> 0 -> m (Cell i j) = cell g i j.
Proof.
  simpl. intros H Hnz.
  destruct (Z.eqb_spec (cell g i j) 0) as [|_]; [contradiction|].
  simpl in H. now apply Z.eqb_eq in H.
Qed.

(** The candidate solver is sound: it checks before it answers. *)
Lemma oracle_check_sound (candidates : list model) :
  sat_sound (oracle_check candidates).
Proof.
  intros cs m. unfold oracle_check.
  destruct (find (fun m0 => models m0 cs) candidates) as [m0|] eqn:E;
    [|discriminate].
  intros H. injection H as <-. now apply find_some in E.
Defined.

(** ** The reference invocation on the candidate solver *)

Lemma reference_run :
  returns (complete_magic_square reference_check oracle_sexpr
             grid_size incomplete_square)
          initial_world (Some recorded_solution).
Proof. unfold returns. vm_compute. reflexivity. Defined.

(** ** Properties of returned grids *)

(** C1: whenever [complete_magic_square] returns a grid, under a solver whose
    models satisfy the assertions, the grid has [grid_size] rows of
    [grid_size] cells, and every row sum, every column sum and both
    main-diagonal sums equal the sum of row 0 (the magic constant). *)
Theorem returned_sums_equal
  (check : list formula -> check_result) (sexpr : model -> string)
  (check_sound : sat_sound check)
  (n : Z) (g : grid) (w : world) (sol : grid) :
  returns (complete_magic_square check sexpr n g) w (Some sol) ->
  square_shape n sol /\
  (forall i, 0 <= i < n -> row_sum sol i = row_sum sol 0) /\
  (forall j, 0 <= j < n -> column_sum sol j = row_sum sol 0) /\
  diagonal_sum sol = row_sum sol 0 /\
  antidiagonal_sum sol = row_sum sol 0.
Proof.
  intros H.
  apply (returned_model check sexpr check_sound) in H
    as [Hn [m [-> [Hm _]]]].
  split; [apply grid_of_shape; lia|].
  split; [intros i Hi; now apply model_row|].
  split; [intros j Hj; now apply model_column|].
  split; [now apply model_diagonal|now apply model_antidiagonal].
Qed.

Lemma returned_sums_equal_witness :
  square_shape 4 recorded_solution /\
  (forall i, 0 <= i < 4 -> row_sum recorded_solution i = 22) /\
  (forall j, 0 <= j < 4 -> column_sum recorded_solution j = 22) /\
  diagonal_sum recorded_solution = 22 /\
  antidiagonal_sum recorded_solution = 22.
Proof.
  exact (returned_sums_equal reference_check oracle_sexpr
           (oracle_check_sound [recorded_model])
           grid_size incomplete_square initial_world recorded_solution
           reference_run).
Defined.

(** C2: whenever [complete_magic_square] returns a grid, every position
    (i, j) of the square whose input entry is non-zero holds that entry in
    the returned grid. *)
Theorem given_cells_preserved
  (check : list formula -> check_result) (sexpr : model -> string)
  (check_sound : sat_sound check)
  (n : Z) (g : grid) (w : world) (sol : grid) (i j : Z) :
  returns (complete_magic_square check sexpr n g) w (Some sol) ->
  0 <= i < n -> 0 <= j < n ->
  cell g i j <> 0 ->
  cell sol i j = cell g i j.
Proof.
  intros H Hi Hj Hnz.
  apply (returned_model check sexpr check_sound) in H
    as [Hn [m [-> [_ Hgiven]]]].
  rewrite grid_of_cell by assumption.
  apply model_given; [now apply Hgiven|assumption].
Qed.

Lemma given_cells_preserved_witness :
  cell recorded_solution 1 1 = cell incomplete_square 1 1.
Proof.
  apply (given_cells_preserved reference_check oracle_sexpr
           (oracle_check_sound [recorded_model])
           grid_size incomplete_square initial_world recorded_solution 1 1
           reference_run).
  - unfold grid_size. lia.
  - unfold grid_size. lia.
  - vm_compute. discriminate.
Defined.

(** C3: whenever [complete_magic_square] returns a grid, every cell of the
    grid lies between 1 and grid_size squared. *)
Theorem returned_cells_in_range
  (check : list formula -> check_result) (sexpr : model -> string)
  (check_sound : sat_sound check)
  (n : Z) (g : grid) (w : world) (sol : grid) :
  returns (complete_magic_square check sexpr n g) w (Some sol) ->
  Forall (fun row => Forall (fun v => 1 <= v <= n ^ 2) row) sol.
Proof.
  intros H.
  apply (returned_model check sexpr check_sound) in H
    as [Hn [m [-> [Hm _]]]].
  apply Forall_forall. intros row Hrow.
  apply in_map_iff in Hrow as [i [<- Hi]]. apply in_range in Hi.
  apply Forall_forall. intros v Hv.
  apply in_map_iff in Hv as [j [<- Hj]]. apply in_range in Hj.
  now apply model_range.
Qed.

Lemma returned_cells_in_range_witness :
  Forall (fun row => Forall (fun v => 1 <= v <= 4 ^ 2) row) recorded_solution.
Proof.
  exact (returned_cells_in_range reference_check oracle_sexpr
           (oracle_check_sound [recorded_model])
           grid_size incomplete_square initial_world recorded_solution
           reference_run).
Defined.

(** C4: whenever [complete_magic_square] returns a grid, the sums
    cell(0, i) + cell(grid_size-1, grid_size-1-i) for i in [0, grid_size)
    all equal one constant. *)
Theorem associative_pairing
  (check : list formula -> check_result) (sexpr : model -> string)
  (check_sound : sat_sound check)
  (n : Z) (g : grid) (w : world) (sol : grid) :
  returns (complete_magic_square check sexpr n g) w (Some sol) ->
  exists c, forall i, 0 <= i < n ->
    cell sol 0 i + cell sol (n - 1) (n - 1 - i) = c.
Proof.
  intros H.
  apply (returned_model check sexpr check_sound) in H
    as [Hn [m [-> [Hm _]]]].
  exists (m AssociativeSum). intros i Hi.
  rewrite !grid_of_cell by lia.
  replace (n - 1 - i) with (n - i - 1) by lia.
  now apply model_associative_row.
Qed.

Lemma associative_pairing_witness :
  exists c, forall i, 0 <= i < 4 ->
    cell recorded_solution 0 i + cell recorded_solution (4 - 1) (4 - 1 - i) = c.
Proof.
  exact (associative_pairing reference_check oracle_sexpr
           (oracle_check_sound [recorded_model])
           grid_size incomplete_square initial_world recorded_solution
           reference_run).
Defined.

(** ** The second associative family *)

Lemma column_family_range (n : Z) : column_family_indices n 1 (n - 1).
Proof.
  exists (map (associative_column_formula n) (range 1 (n - 1))).
  split; [apply associative_column_constraints_eq|].
  intros i. rewrite in_map_iff. split.
  - intros [k [Hk Hin]]. injection Hk as Hk _. subst k.
    now apply in_range.
  - intros Hi. exists i. split; [reflexivity|now apply in_range].
Qed.

(** The column equation holds in every returned grid on the interior rows
    and, through the first family, on the two boundary rows as well. *)
Lemma model_column_pairs (m : model) (n i : Z) :
  1 <= n -> models m (structural n) = true ->
  0 <= i < n ->
  m (Cell i 0) + m (Cell (n - 1 - i) (n - 1))
  = m (Cell 0 0) + m (Cell (n - 1) (n - 1)).
Proof.
  intros Hn Hm Hi.
  pose proof (model_associative_row m n Hm 0 ltac:(lia)) as H0.
  replace (n - 0 - 1) with (n - 1) in H0 by lia. rewrite H0.
  destruct (Z.eq_dec i 0) as [->|Hnz].
  - now replace (n - 1 - 0) with (n - 1) by lia.
  - destruct (Z.eq_dec i (n - 1)) as [->|Hnl].
    + pose proof (model_associative_row m n Hm (n - 1) ltac:(lia)) as H1.
      replace (n - (n - 1) - 1) with 0 in H1 by lia.
      replace (n - 1 - (n - 1)) with 0 by lia. lia.
    + replace (n - 1 - i) with (n - i - 1) by lia.
      apply model_associative_column; [assumption|lia].
Qed.

(** C5, as the code has it: the associative-column equation is asserted by
    [associative_column_constraints] exactly for the indices i with
    1 <= i < grid_size - 1, and every returned grid satisfies the pair-sum
    equation cell(i,0) + cell(grid_size-1-i, grid_size-1) = constant at those
    indices; at i = 0 and i = grid_size - 1 it holds too, by the first
    family. *)
Theorem associative_column_family
  (check : list formula -> check_result) (sexpr : model -> string)
  (check_sound : sat_sound check)
  (n : Z) (g : grid) (w : world) (sol : grid) :
  returns (complete_magic_square check sexpr n g) w (Some sol) ->
  column_family_indices n 1 (n - 1) /\
  (forall i, 1 <= i < n - 1 ->
     In (associative_column_formula n i) (query w n g)) /\
  (forall i, 0 <= i < n ->
     cell sol i 0 + cell sol (n - 1 - i) (n - 1)
     = cell sol 0 0 + cell sol (n - 1) (n - 1)).
Proof.
  intros H. split; [apply column_family_range|].
  split.
  - intros i Hi. unfold query. apply in_or_app. left. apply in_or_app. right.
    now apply in_structural_associative_column.
  - apply (returned_model check sexpr check_sound) in H
      as [Hn [m [-> [Hm _]]]].
    intros i Hi. rewrite !grid_of_cell by lia.
    now apply model_column_pairs.
Qed.

Lemma associative_column_family_witness :
  column_family_indices 4 1 (4 - 1) /\
  (forall i, 1 <= i < 4 - 1 ->
     In (associative_column_formula 4 i)
        (query initial_world 4 incomplete_square)) /\
  (forall i, 0 <= i < 4 ->
     cell recorded_solution i 0 + cell recorded_solution (4 - 1 - i) (4 - 1)
     = cell recorded_solution 0 0 + cell recorded_solution (4 - 1) (4 - 1)).
Proof.
  exact (associative_column_family reference_check oracle_sexpr
           (oracle_check_sound [recorded_model])
           grid_size incomplete_square initial_world recorded_solution
           reference_run).
Defined.

(** For a 4x4 square the family holds the equation of index 2, which lies
    outside [1, grid_size - 2) = [1, 2). *)
Lemma column_family_not_up_to_size_minus_2 :
  ~ column_family_indices 4 1 (4 - 2).
Proof.
  intros [l [Hl H]].
  rewrite associative_column_constraints_eq in Hl. injection Hl as <-.
  assert (Hin : In (associative_column_formula 4 2)
                   (map (associative_column_formula 4) (range 1 (4 - 1)))).
  { apply in_map. apply in_range. lia. }
  apply H in Hin. lia.
Qed.

(** ** The reference scenario *)

Lemma query_models (m : model) (w : world) (n : Z) (g : grid) :
  models m (query w n g) = true ->
  models m (solver w) = true /\
  models m (structural n) = true /\
  models m (given n g) = true.
Proof.
  unfold query. rewrite !models_app. intros H.
  apply andb_true_iff in H as [H Hg].
  apply andb_true_iff in H as [Hs Hst]. auto.
Qed.

Lemma incomplete_square_shape : square_shape grid_size incomplete_square.
Proof. split; [reflexivity|repeat constructor]. Qed.

Lemma reference_satisfiable :
  satisfiable (query initial_world grid_size incomplete_square).
Proof. exists recorded_model. vm_compute. reflexivity. Qed.

(** C6: with grid_size = 4 and the input of line 83, from the fresh solver
    of line 14, a sound solver that finds a model when there is one makes
    [complete_magic_square] return a 4x4 grid with cell (0,2) = 1,
    cell (1,1) = 5, cell (3,3) = 6, and all four row sums equal to each other
    and to both main-diagonal sums. *)
Theorem reference_scenario
  (check : list formula -> check_result) (sexpr : model -> string)
  (check_sound : sat_sound check) :
  decides check (query initial_world grid_size incomplete_square) ->
  exists sol,
    returns (complete_magic_square check sexpr grid_size incomplete_square)
            initial_world (Some sol) /\
    square_shape 4 sol /\
    cell sol 0 2 = 1 /\ cell sol 1 1 = 5 /\ cell sol 3 3 = 6 /\
    (forall i, 0 <= i < 4 -> row_sum sol i = row_sum sol 0) /\
    diagonal_sum sol = row_sum sol 0 /\
    antidiagonal_sum sol = row_sum sol 0.
Proof.
  intros Hdec. destruct (Hdec reference_satisfiable) as [m Hm].
  exists (grid_of m 4).
  assert (Hn : 1 <= grid_size) by (unfold grid_size; lia).
  split.
  { unfold returns.
    rewrite (complete_magic_square_run check sexpr _ _ _ Hn
               incomplete_square_shape).
    now rewrite Hm. }
  apply check_sound in Hm.
  apply query_models in Hm as [_ [Hst Hgiven]].
  assert (Hcell : forall i j, 0 <= i < 4 -> 0 <= j < 4 ->
            cell incomplete_square i j <> 0 ->
            cell (grid_of m 4) i j = cell incomplete_square i j).
  { intros i j Hi Hj Hnz. rewrite grid_of_cell by assumption.
    apply model_given; [|assumption].
    apply (models_in m (given grid_size incomplete_square)); [assumption|].
    now apply in_given. }
  split; [apply grid_of_shape; lia|].
  split; [apply (Hcell 0 2); [lia|lia|vm_compute; discriminate]|].
  split; [apply (Hcell 1 1); [lia|lia|vm_compute; discriminate]|].
  split; [apply (Hcell 3 3); [lia|lia|vm_compute; discriminate]|].
  split; [intros i Hi; now apply (model_row m 4)|].
  split; [now apply (model_diagonal m 4)|now apply (model_antidiagonal m 4)].
Qed.

Lemma reference_check_decides :
  decides reference_check (query initial_world grid_size incomplete_square).
Proof. intros _. exists recorded_model. vm_compute. reflexivity. Defined.

Lemma reference_scenario_witness :
  exists sol,
    returns (complete_magic_square reference_check oracle_sexpr
               grid_size incomplete_square)
            initial_world (Some sol) /\
    square_shape 4 sol /\
    cell sol 0 2 = 1 /\ cell sol 1 1 = 5 /\ cell sol 3 3 = 6 /\
    (forall i, 0 <= i < 4 -> row_sum sol i = row_sum sol 0) /\
    diagonal_sum sol = row_sum sol 0 /\
    antidiagonal_sum sol = row_sum sol 0.
Proof.
  exact (reference_scenario reference_check oracle_sexpr
           (oracle_check_sound [recorded_model]) reference_check_decides).
Defined.

(** ** Inputs without a solution *)

Lemma contradictory_square_shape : square_shape 3 contradictory_square.
Proof. split; [reflexivity|repeat constructor]. Qed.

Lemma contradictory_square_unsatisfiable (w : world) :
  ~ satisfiable (query w 3 contradictory_square).
Proof.
  intros [m Hm]. apply query_models in Hm as [_ [Hst Hgiven]].
  assert (Hn : 1 <= 3) by lia.
  pose proof (model_row m 3 Hn Hst 1 ltac:(lia)) as R1.
  pose proof (model_row m 3 Hn Hst 2 ltac:(lia)) as R2.
  pose proof (model_column m 3 Hn Hst 1 ltac:(lia)) as C1.
  pose proof (model_diagonal m 3 Hn Hst) as D1.
  pose proof (model_antidiagonal m 3 Hn Hst) as D2.
  pose proof (model_range m 3 Hst 0 1 ltac:(lia) ltac:(lia)) as B1.
  pose proof (model_range m 3 Hst 0 2 ltac:(lia) ltac:(lia)) as B2.
  assert (G0 : m (Cell 0 0) = 2).
  { apply (model_given m contradictory_square 0 0);
      [|vm_compute; discriminate].
    apply (models_in m _ _ Hgiven). now apply in_given. }
  assert (G1 : m (Cell 1 1) = 1).
  { apply (model_given m contradictory_square 1 1);
      [|vm_compute; discriminate].
    apply (models_in m _ _ Hgiven). now apply in_given. }
  rewrite !grid_of_row_sum in R1 by lia.
  rewrite !grid_of_row_sum in R2 by lia.
  rewrite grid_of_row_sum in C1, D1, D2 by lia.
  rewrite grid_of_column_sum in C1 by lia.
  rewrite grid_of_diagonal_sum in D1 by lia.
  rewrite grid_of_antidiagonal_sum in D2 by lia.
  unfold row_vars, column_vars in R1, R2, C1, D1, D2.
  change (range 0 3) with [0; 1; 2] in R1, R2, C1, D1, D2.
  simpl in R1, R2, C1, D1, D2.
  lia.
Qed.

Lemma main_eq (check : list formula -> check_result) (sexpr : model -> string) :
  main check sexpr = solve_and_visualise check sexpr grid_size incomplete_square.
Proof. reflexivity. Qed.

Lemma visualise_none (n : Z) (w : world) :
  visualise n None w
  = (Ok tt, mkWorld (solver w) (stdout w ++ [no_solution_message n])).
Proof. reflexivity. Qed.

(** C7, as the code has it: on a well-shaped input whose assertions
    (together with those already in the solver) have no model, a sound
    solver makes [complete_magic_square] return None without raising, and
    the program then prints the one line
    "No solution found for {size}x{size} Magic Square.". *)
Theorem unsatisfiable_returns_none
  (check : list formula -> check_result) (sexpr : model -> string)
  (check_sound : sat_sound check)
  (n : Z) (g : grid) (w : world) :
  1 <= n -> square_shape n g ->
  ~ satisfiable (query w n g) ->
  returns (complete_magic_square check sexpr n g) w None /\
  ~ raises (complete_magic_square check sexpr n g) w /\
  solve_and_visualise check sexpr n g w
  = (Ok tt, mkWorld (query w n g) (stdout w ++ [no_solution_message n])).
Proof.
  intros Hn Hg Hunsat.
  pose proof (complete_magic_square_run check sexpr n g w Hn Hg) as Hrun.
  destruct (check (query w n g)) as [m| |] eqn:E.
  - exfalso. apply Hunsat. exists m. now apply check_sound.
  - unfold returns, raises, solve_and_visualise, bindM. rewrite Hrun.
    split; [reflexivity|]. split; [intros [e He]; discriminate|reflexivity].
  - unfold returns, raises, solve_and_visualise, bindM. rewrite Hrun.
    split; [reflexivity|]. split; [intros [e He]; discriminate|reflexivity].
Qed.

Lemma unsatisfiable_returns_none_witness :
  returns (complete_magic_square reference_check oracle_sexpr
             3 contradictory_square) initial_world None /\
  ~ raises (complete_magic_square reference_check oracle_sexpr
              3 contradictory_square) initial_world /\
  solve_and_visualise reference_check oracle_sexpr 3 contradictory_square
                      initial_world
  = (Ok tt, mkWorld (query initial_world 3 contradictory_square)
                    ["No solution found for 3x3 Magic Square."%string]).
Proof.
  apply (unsatisfiable_returns_none reference_check oracle_sexpr
           (oracle_check_sound [recorded_model])
           3 contradictory_square initial_world).
  - lia.
  - split; [reflexivity|repeat constructor].
  - apply contradictory_square_unsatisfiable.
Defined.

(** The line printed for the unsatisfiable 3x3 input is not the quoted text,
    and the quoted text does not occur inside it either. *)
Lemma no_solution_message_not_as_quoted :
  let out := stdout (snd (solve_and_visualise reference_check oracle_sexpr
                            3 contradictory_square initial_world)) in
  out = ["No solution found for 3x3 Magic Square."%string] /\
  ~ In (quoted_no_solution_message 3) out /\
  forallb (fun line =>
             match index 0 (quoted_no_solution_message 3) line with
             | Some _ => false
             | None => true
             end) out = true.
Proof.
  split; [vm_compute; reflexivity|].
  split; [|vm_compute; reflexivity].
  intros [H|[]]. vm_compute in H. discriminate.
Qed.

(** ** Distinctness is not asserted *)

Lemma constant_model_structural (n c : Z) :
  1 <= c <= n ^ 2 -> models (constant_model c) (structural n) = true.
Proof.
  intros Hc. apply forallb_forall. intros f Hf. unfold structural in Hf.
  repeat (apply in_app_or in Hf as [Hf|Hf]).
  - apply in_map_iff in Hf as [[i j] [<- _]]. simpl.
    apply andb_true_iff. split; apply Z.leb_le; lia.
  - apply in_map_iff in Hf as [i [<- _]].
    unfold row_formula, row_vars. cbn [holds].
    rewrite (eval_sum_vars _ (fun j => Cell i j)),
            (eval_sum_vars _ (fun j => Cell 0 j)).
    apply Z.eqb_refl.
  - apply in_map_iff in Hf as [j [<- _]].
    unfold column_formula, column_vars, row_vars. cbn [holds].
    rewrite (eval_sum_vars _ (fun i => Cell i j)),
            (eval_sum_vars _ (fun j => Cell 0 j)).
    apply Z.eqb_refl.
  - destruct Hf as [<-|[<-|[]]].
    + unfold diagonal_formula, row_vars. cbn [holds].
      rewrite (eval_sum_vars _ (fun i => Cell i i)),
              (eval_sum_vars _ (fun j => Cell 0 j)).
      apply Z.eqb_refl.
    + unfold antidiagonal_formula, row_vars. cbn [holds].
      rewrite (eval_sum_vars _ (fun i => Cell (n - i - 1) i)),
              (eval_sum_vars _ (fun j => Cell 0 j)).
      apply Z.eqb_refl.
  - apply in_map_iff in Hf as [i [<- _]]. simpl. apply Z.eqb_refl.
  - apply in_map_iff in Hf as [i [<- _]]. simpl. apply Z.eqb_refl.
Qed.

(** Sixteen pairwise distinct values between 1 and 16 are 1..16 in some
    order, so they add up to 136. *)
Lemma Zsum_Permutation (l l' : list Z) :
  Permutation l l' -> Zsum l = Zsum l'.
Proof.
  induction 1 as [|x l l' _ IH|x y l|l l' l'' _ IH1 _ IH2]; simpl;
    [reflexivity|now rewrite IH|lia|now rewrite IH1].
Qed.

Lemma Zsum_distinct (l : list Z) (k : Z) :
  NoDup l -> Z.of_nat (List.length l) = k ->
  Forall (fun v => 1 <= v <= k) l ->
  Zsum l = Zsum (range 1 (k + 1)).
Proof.
  intros Hnd Hlen Hall. apply Zsum_Permutation.
  apply NoDup_Permutation_bis; [assumption| |].
  - rewrite length_range. lia.
  - intros v Hv. rewrite Forall_forall in Hall.
    apply in_range. specialize (Hall v Hv). lia.
Qed.

Lemma NoDup_nth_neq (l : list Z) (i j : nat) :
  NoDup l -> (i < List.length l)%nat -> (j < List.length l)%nat -> i <> j ->
  nth i l 0 <> nth j l 0.
Proof.
  intros Hnd Hi Hj Hij E. apply Hij.
  now apply (proj1 (NoDup_nth l 0) Hnd).
Qed.

Lemma grid_of_cells_in_range (m : model) (n : Z) :
  models m (structural n) = true ->
  Forall (fun row => Forall (fun v => 1 <= v <= n ^ 2) row) (grid_of m n).
Proof.
  intros Hm. apply Forall_forall. intros row Hrow.
  apply in_map_iff in Hrow as [i [<- Hi]]. apply in_range in Hi.
  apply Forall_forall. intros v Hv.
  apply in_map_iff in Hv as [j [<- Hj]]. apply in_range in Hj.
  now apply model_range.
Qed.

(** No model of the reference scenario has sixteen distinct cells: distinct
    cells would be 1..16, the magic constant 34 and the associative sum 17,
    and then the three given cells leave no value for cell (0,1). *)
Lemma reference_model_repeats (m : model) :
  models m (structural 4) = true ->
  models m (given 4 incomplete_square) = true ->
  ~ NoDup (List.concat (grid_of m 4)).
Proof.
  intros Hst Hgiven Hnd.
  assert (Hn : 1 <= 4) by lia.
  assert (HL : List.concat (grid_of m 4)
               = [ m (Cell 0 0); m (Cell 0 1); m (Cell 0 2); m (Cell 0 3);
                   m (Cell 1 0); m (Cell 1 1); m (Cell 1 2); m (Cell 1 3);
                   m (Cell 2 0); m (Cell 2 1); m (Cell 2 2); m (Cell 2 3);
                   m (Cell 3 0); m (Cell 3 1); m (Cell 3 2); m (Cell 3 3) ])
    by reflexivity.
  assert (Hsum : Zsum (List.concat (grid_of m 4)) = 136).
  { rewrite (Zsum_distinct _ 16 Hnd); [reflexivity|now rewrite HL|].
    apply Forall_concat. now apply (grid_of_cells_in_range m 4). }
  rewrite HL in Hnd, Hsum. simpl in Hsum.
  pose proof (model_row m 4 Hn Hst 1 ltac:(lia)) as R1.
  pose proof (model_row m 4 Hn Hst 2 ltac:(lia)) as R2.
  pose proof (model_row m 4 Hn Hst 3 ltac:(lia)) as R3.
  pose proof (model_column m 4 Hn Hst 1 ltac:(lia)) as C1.
  pose proof (model_diagonal m 4 Hn Hst) as D1.
  rewrite !grid_of_row_sum in R1 by lia.
  rewrite !grid_of_row_sum in R2 by lia.
  rewrite !grid_of_row_sum in R3 by lia.
  rewrite grid_of_row_sum in C1, D1 by lia.
  rewrite grid_of_column_sum in C1 by lia.
  rewrite grid_of_diagonal_sum in D1 by lia.
  unfold row_vars, column_vars in R1, R2, R3, C1, D1.
  change (range 0 4) with [0; 1; 2; 3] in R1, R2, R3, C1, D1.
  simpl in R1, R2, R3, C1, D1.
  pose proof (model_associative_row m 4 Hst 0 ltac:(lia)) as A0.
  pose proof (model_associative_row m 4 Hst 1 ltac:(lia)) as A1.
  pose proof (model_associative_row m 4 Hst 2 ltac:(lia)) as A2.
  pose proof (model_associative_row m 4 Hst 3 ltac:(lia)) as A3.
  simpl in A0, A1, A2, A3.
  pose proof (model_range m 4 Hst 0 3 ltac:(lia) ltac:(lia)) as B03.
  pose proof (model_range m 4 Hst 2 1 ltac:(lia) ltac:(lia)) as B21.
  assert (G : forall i j, 0 <= i < 4 -> 0 <= j < 4 ->
            cell incomplete_square i j <> 0 ->
            m (Cell i j) = cell incomplete_square i j).
  { intros i j Hi Hj Hnz. apply model_given; [|assumption].
    apply (models_in m _ _ Hgiven). now apply in_given. }
  pose proof (G 0 2 ltac:(lia) ltac:(lia) ltac:(vm_compute; discriminate)) as G02.
  pose proof (G 1 1 ltac:(lia) ltac:(lia) ltac:(vm_compute; discriminate)) as G11.
  pose proof (G 3 3 ltac:(lia) ltac:(lia) ltac:(vm_compute; discriminate)) as G33.
  change (cell incomplete_square 0 2) with 1 in G02.
  change (cell incomplete_square 1 1) with 5 in G11.
  change (cell incomplete_square 3 3) with 6 in G33.
  pose proof (NoDup_nth_neq _ 1 15 Hnd ltac:(simpl; lia) ltac:(simpl; lia)
                ltac:(lia)) as N1.
  pose proof (NoDup_nth_neq _ 9 15 Hnd ltac:(simpl; lia) ltac:(simpl; lia)
                ltac:(lia)) as N2.
  pose proof (NoDup_nth_neq _ 9 5 Hnd ltac:(simpl; lia) ltac:(simpl; lia)
                ltac:(lia)) as N3.
  pose proof (NoDup_nth_neq _ 9 12 Hnd ltac:(simpl; lia) ltac:(simpl; lia)
                ltac:(lia)) as N4.
  pose proof (NoDup_nth_neq _ 3 10 Hnd ltac:(simpl; lia) ltac:(simpl; lia)
                ltac:(lia)) as N5.
  pose proof (NoDup_nth_neq _ 1 0 Hnd ltac:(simpl; lia) ltac:(simpl; lia)
                ltac:(lia)) as N6.
  pose proof (NoDup_nth_neq _ 1 10 Hnd ltac:(simpl; lia) ltac:(simpl; lia)
                ltac:(lia)) as N7.
  simpl in N1, N2, N3, N4, N5, N6, N7.
  lia.
Qed.

(** C8: the assertions of a call hold in the valuation that gives every cell
    the same value c in [1, grid_size^2] (so nothing asserted forces two cells
    apart: only the range bound and the sum equalities constrain values),
    and every grid returned for the reference 4x4 scenario contains a
    repeated value. *)
Theorem no_distinctness_constraint
  (check : list formula -> check_result) (sexpr : model -> string)
  (check_sound : sat_sound check)
  (n c : Z) (sol : grid) :
  1 <= n -> 1 <= c <= n ^ 2 ->
  returns (complete_magic_square check sexpr grid_size incomplete_square)
          initial_world (Some sol) ->
  (structural_constraints n = Ok (structural n) /\
   models (constant_model c) (structural n) = true) /\
  ~ NoDup (List.concat sol).
Proof.
  intros Hn Hc H. split.
  - split; [now apply structural_constraints_eq
           |now apply constant_model_structural].
  - apply complete_magic_square_some in H as [_ [gs [m [Hgs [Hm ->]]]]].
    rewrite (incomplete_square_constraints_eq _ _ incomplete_square_shape)
      in Hgs.
    injection Hgs as <-.
    apply check_sound in Hm.
    change (models m (query initial_world grid_size incomplete_square) = true)
      in Hm.
    apply query_models in Hm as [_ [Hst Hgiven]].
    now apply reference_model_repeats.
Qed.

Lemma no_distinctness_constraint_witness :
  (structural_constraints 4 = Ok (structural 4) /\
   models (constant_model 1) (structural 4) = true) /\
  ~ NoDup (List.concat recorded_solution).
Proof.
  apply (no_distinctness_constraint reference_check oracle_sexpr
           (oracle_check_sound [recorded_model]) 4 1 recorded_solution).
  - lia.
  - lia.
  - exact reference_run.
Defined.

(** ** One solver for every call *)

Lemma second_square_shape : square_shape 4 second_square.
Proof. split; [reflexivity|repeat constructor]. Qed.

Lemma second_square_satisfiable :
  satisfiable (query initial_world 4 second_square).
Proof. exists (constant_model 7). vm_compute. reflexivity. Qed.

(** The assertions of a call stay in the solver after it returns. *)
Lemma assertions_persist
  (check : list formula -> check_result) (sexpr : model -> string)
  (n : Z) (g : grid) (w : world) :
  1 <= n -> square_shape n g ->
  solver (snd (complete_magic_square check sexpr n g w)) = query w n g.
Proof.
  intros Hn Hg. rewrite complete_magic_square_run by assumption.
  now destruct (check (query w n g)).
Qed.

(** C9: there is one solver for all calls, so the assertions of a call are
    still in it after the call returns; after the reference call, a call on
    [second_square] returns None although [second_square], solved from a
    fresh solver, has a solution. *)
Theorem solver_state_leaks
  (check : list formula -> check_result) (sexpr : model -> string)
  (check_sound : sat_sound check)
  (n : Z) (g : grid) (w : world) :
  1 <= n -> square_shape n g ->
  decides check (query initial_world 4 second_square) ->
  solver (snd (complete_magic_square check sexpr n g w)) = query w n g /\
  (let after_first :=
     snd (complete_magic_square check sexpr grid_size incomplete_square
                                initial_world) in
   returns (complete_magic_square check sexpr 4 second_square)
           after_first None) /\
  (exists sol,
     returns (complete_magic_square check sexpr 4 second_square)
             initial_world (Some sol)).
Proof.
  intros Hn Hg Hdec.
  split; [now apply assertions_persist|]. split.
  - cbv zeta. unfold returns.
    rewrite complete_magic_square_run by (try lia; apply second_square_shape).
    destruct (check _) as [m| |] eqn:E; try reflexivity.
    exfalso. apply check_sound in E.
    apply query_models in E as [Hold [_ Hsecond]].
    rewrite assertions_persist in Hold
      by (unfold grid_size; try lia; apply incomplete_square_shape).
    apply query_models in Hold as [_ [_ Hfirst]].
    assert (H1 : m (Cell 0 2) = 1).
    { apply (model_given m incomplete_square 0 2);
        [|vm_compute; discriminate].
      apply (models_in m _ _ Hfirst). apply in_given; unfold grid_size; lia. }
    assert (H7 : m (Cell 0 2) = 7).
    { apply (model_given m second_square 0 2); [|vm_compute; discriminate].
      apply (models_in m _ _ Hsecond). apply in_given; lia. }
    lia.
  - destruct (Hdec second_square_satisfiable) as [m Hm].
    exists (grid_of m 4). unfold returns.
    rewrite complete_magic_square_run by (try lia; apply second_square_shape).
    now rewrite Hm.
Qed.

Lemma two_candidates_decides :
  decides two_candidates_check (query initial_world 4 second_square).
Proof. intros _. exists (constant_model 7). vm_compute. reflexivity. Defined.

Lemma solver_state_leaks_witness :
  solver (snd (complete_magic_square two_candidates_check oracle_sexpr
                 grid_size incomplete_square initial_world))
  = query initial_world grid_size incomplete_square /\
  (let after_first :=
     snd (complete_magic_square two_candidates_check oracle_sexpr
            grid_size incomplete_square initial_world) in
   returns (complete_magic_square two_candidates_check oracle_sexpr
              4 second_square) after_first None) /\
  (exists sol,
     returns (complete_magic_square two_candidates_check oracle_sexpr
                4 second_square) initial_world (Some sol)).
Proof.
  apply (solver_state_leaks two_candidates_check oracle_sexpr
           (oracle_check_sound [recorded_model; constant_model 7])
           grid_size incomplete_square initial_world).
  - unfold grid_size. lia.
  - split; [reflexivity|repeat constructor].
  - exact two_candidates_decides.
Defined.

(** ** No exception on a well-shaped input *)

Lemma small_grids_no_column_family (n : Z) :
  n <= 2 -> associative_column_constraints n (make_square n) = Ok [].
Proof.
  intros H. rewrite associative_column_constraints_eq.
  unfold range. now replace (Z.to_nat (n - 1 - 1)) with 0%nat by lia.
Qed.

(** C10: for grid_size >= 1 and a grid_size x grid_size input, whatever the
    solver answers, [complete_magic_square] raises nothing and returns a
    grid_size x grid_size grid or None: both comprehensions over [square]
    and the input complete (for sizes 1 and 2 the associative-column family
    is empty), and a grid comes back exactly when the verdict is sat, as the
    decoding of that verdict's model. *)
Theorem well_shaped_call_never_raises
  (check : list formula -> check_result) (sexpr : model -> string)
  (n : Z) (g : grid) (w : world) :
  1 <= n -> square_shape n g ->
  structural_constraints n = Ok (structural n) /\
  incomplete_square_constraints n (make_square n) g = Ok (given n g) /\
  (n <= 2 -> associative_column_constraints n (make_square n) = Ok []) /\
  ~ raises (complete_magic_square check sexpr n g) w /\
  ((exists sol,
      returns (complete_magic_square check sexpr n g) w (Some sol) /\
      square_shape n sol) \/
   returns (complete_magic_square check sexpr n g) w None) /\
  (forall sol,
     returns (complete_magic_square check sexpr n g) w (Some sol) <->
     exists m, check (query w n g) = sat m /\ sol = grid_of m n).
Proof.
  intros Hn Hg.
  split; [now apply structural_constraints_eq|].
  split; [now apply incomplete_square_constraints_eq|].
  split; [apply small_grids_no_column_family|].
  unfold returns, raises.
  rewrite complete_magic_square_run by assumption.
  destruct (check (query w n g)) as [m| |] eqn:E; simpl.
  - split; [intros [e He]; discriminate|]. split.
    + left. exists (grid_of m n). split; [reflexivity|].
      apply grid_of_shape. lia.
    + intros sol. split.
      * intros H. injection H as <-. now exists m.
      * intros [m' [Hm' ->]]. now injection Hm' as <-.
  - split; [intros [e He]; discriminate|]. split; [now right|].
    intros sol. split; [discriminate|intros [m' [Hm' _]]; discriminate].
  - split; [intros [e He]; discriminate|]. split; [now right|].
    intros sol. split; [discriminate|intros [m' [Hm' _]]; discriminate].
Qed.

Lemma well_shaped_call_never_raises_witness :
  let check := oracle_check [constant_model 1] in
  structural_constraints 1 = Ok (structural 1) /\
  incomplete_square_constraints 1 (make_square 1) [[0]] = Ok (given 1 [[0]]) /\
  (1 <= 2 -> associative_column_constraints 1 (make_square 1) = Ok []) /\
  ~ raises (complete_magic_square check oracle_sexpr 1 [[0]]) initial_world /\
  ((exists sol,
      returns (complete_magic_square check oracle_sexpr 1 [[0]])
              initial_world (Some sol) /\
      square_shape 1 sol) \/
   returns (complete_magic_square check oracle_sexpr 1 [[0]])
           initial_world None) /\
  (forall sol,
     returns (complete_magic_square check oracle_sexpr 1 [[0]])
             initial_world (Some sol) <->
     exists m, check (query initial_world 1 [[0]]) = sat m
               /\ sol = grid_of m 1).
Proof.
  apply (well_shaped_call_never_raises (oracle_check [constant_model 1])
           oracle_sexpr 1 [[0]] initial_world).
  - lia.
  - split; [reflexivity|repeat constructor].
Defined.

(** X1: outside that precondition the call can raise: for grid_size <= 0
    there is no row 0, so line 26 raises IndexError before anything is added
    to the solver or printed; the solver and the output are left as they
    were. *)
Lemma empty_grid_raises
  (check : list formula -> check_result) (sexpr : model -> string)
  (n : Z) (g : grid) (w : world) :
  n <= 0 ->
  complete_magic_square check sexpr n g w = (Raise IndexError, w).
Proof.
  intros H. unfold complete_magic_square, bindM, lift.
  now rewrite structural_constraints_raises.
Qed.

(** A too-short input raises at line 61, after the structural assertions
    have been added: they stay in the solver. *)
Lemma short_input_raises_after_add :
  complete_magic_square reference_check oracle_sexpr 1 [] initial_world
  = (Raise IndexError, mkWorld (structural 1) []).
Proof. vm_compute. reflexivity. Qed.

Lemma empty_grid_raises_witness :
  complete_magic_square reference_check oracle_sexpr 0 [] initial_world
  = (Raise IndexError, initial_world).
Proof.
  apply (empty_grid_raises reference_check oracle_sexpr 0 [] initial_world).
  lia.
Defined.

(** ** Inputs that are not grid_size x grid_size *)

Lemma getitem_beyond {A} (l : list A) (i : Z) :
  Z.of_nat (List.length l) <= i -> getitem l i = Raise IndexError.
Proof.
  intros H. unfold getitem.
  destruct (Z.ltb_spec i 0) as [Hneg|_]; [lia|].
  destruct (Z.ltb_spec i (Z.of_nat (List.length l))) as [Hlt|_]; [lia|].
  now rewrite andb_false_r.
Qed.

Lemma forallb_false {A} (f : A -> bool) (l : list A) :
  forallb f l = false -> exists a, In a l /\ f a = false.
Proof.
  induction l as [|x l IH]; simpl; [discriminate|].
  destruct (f x) eqn:E; simpl.
  - intros H. destruct (IH H) as [a [Ha Hf]]. exists a. auto.
  - intros _. exists x. auto.
Qed.

Lemma mapR_raise {A B} (f : A -> res B) (l : list A) (a : A) :
  In a l -> f a = Raise IndexError -> mapR f l = Raise IndexError.
Proof.
  induction l as [|x l IH]; intros Hin Hf; [contradiction|]. simpl.
  destruct (f x) as [b|[]] eqn:E; [|reflexivity].
  destruct Hin as [->|Hin]; [congruence|].
  simpl. now rewrite IH.
Qed.

Lemma covers_getitem2 (n : Z) (g : grid) (i j : Z) :
  covers n g = true -> 0 <= i < n -> 0 <= j < n ->
  getitem2 g i j = Ok (cell g i j).
Proof.
  unfold covers. intros H Hi Hj.
  apply andb_true_iff in H as [Hlen Hrows]. apply Z.leb_le in Hlen.
  rewrite forallb_forall in Hrows.
  specialize (Hrows i (proj2 (in_range 0 n i) Hi)). apply Z.leb_le in Hrows.
  unfold getitem2, cell.
  rewrite (getitem_in_bounds g []) by lia. simpl.
  apply getitem_in_bounds. lia.
Qed.

Lemma not_covers_position (n : Z) (g : grid) :
  covers n g = false ->
  exists i j, 0 <= i < n /\ 0 <= j < n /\ getitem2 g i j = Raise IndexError.
Proof.
  unfold covers. intros H. apply andb_false_iff in H as [H|H].
  - apply Z.leb_gt in H. exists (Z.of_nat (List.length g)), 0.
    split; [lia|]. split; [lia|].
    unfold getitem2. now rewrite getitem_beyond by lia.
  - apply forallb_false in H as [i [Hi Hrow]].
    apply in_range in Hi. apply Z.leb_gt in Hrow.
    destruct (Z_lt_ge_dec i (Z.of_nat (List.length g))) as [Hin|Hout].
    + exists i, (Z.of_nat (List.length (nth (Z.to_nat i) g []))).
      split; [lia|]. split; [lia|].
      unfold getitem2. rewrite (getitem_in_bounds g []) by lia. simpl.
      apply getitem_beyond. lia.
    + exists i, 0. split; [lia|]. split; [lia|].
      unfold getitem2. now rewrite getitem_beyond by lia.
Qed.

Lemma incomplete_square_constraints_covers (n : Z) (g : grid) :
  covers n g = true ->
  incomplete_square_constraints n (make_square n) g = Ok (given n g).
Proof.
  intros Hg. apply mapR_ok. intros [i j] H.
  apply in_positions in H as [Hi Hj].
  now rewrite (covers_getitem2 n), square_getitem2.
Qed.

Lemma incomplete_square_constraints_raises (n : Z) (g : grid) :
  covers n g = false ->
  incomplete_square_constraints n (make_square n) g = Raise IndexError.
Proof.
  intros H. apply not_covers_position in H as [i [j [Hi [Hj Hraise]]]].
  apply (mapR_raise _ _ (i, j)); [now apply in_positions|].
  simpl. now rewrite Hraise.
Qed.

Lemma square_shape_covers (n : Z) (g : grid) :
  square_shape n g -> covers n g = true.
Proof.
  intros [Hlen Hrows]. unfold covers. apply andb_true_iff. split.
  - apply Z.leb_le. lia.
  - apply forallb_forall. intros i Hi. apply in_range in Hi.
    apply Z.leb_le. rewrite Forall_forall in Hrows.
    rewrite Hrows; [lia|]. apply nth_In. lia.
Qed.

(** The whole effect of a call whose input has every position. *)
Lemma complete_magic_square_covers
  (check : list formula -> check_result) (sexpr : model -> string)
  (n : Z) (g : grid) (w : world) :
  1 <= n -> covers n g = true ->
  complete_magic_square check sexpr n g w =
  match check (query w n g) with
  | sat m =>
      (Ok (Some (grid_of m n)),
       mkWorld (query w n g)
               ((stdout w ++ ["Satisfiability: sat"%string])
                  ++ [("SMT-LIB2 format:  " ++ sexpr m)%string]))
  | _ => (Ok None, mkWorld (query w n g) (stdout w))
  end.
Proof.
  intros Hn Hg.
  unfold complete_magic_square, bindM, lift, solver_add, solver_check, query.
  rewrite structural_constraints_eq by assumption. simpl.
  rewrite incomplete_square_constraints_covers by assumption.
  destruct (check ((solver w ++ structural n) ++ given n g)) as [m| |] eqn:E;
    try reflexivity.
  rewrite decode_eq. unfold print, ret. simpl. rewrite E. reflexivity.
Qed.

(** X2: with grid_size >= 1, an input that lacks a row or an entry inside
    the square makes the call raise IndexError at line 61; by then the
    structural assertions have been added and they stay in the solver, while
    nothing has been printed. *)
Theorem short_input_raises
  (check : list formula -> check_result) (sexpr : model -> string)
  (n : Z) (g : grid) (w : world) :
  1 <= n -> covers n g = false ->
  complete_magic_square check sexpr n g w
  = (Raise IndexError, mkWorld (solver w ++ structural n) (stdout w)).
Proof.
  intros Hn Hg. unfold complete_magic_square, bindM, lift, solver_add.
  rewrite structural_constraints_eq by assumption. simpl.
  now rewrite incomplete_square_constraints_raises.
Qed.

Lemma short_input_raises_witness :
  complete_magic_square reference_check oracle_sexpr 3
                        [[1; 2; 3]; [4; 5]; [6; 7; 8]] initial_world
  = (Raise IndexError, mkWorld (solver initial_world ++ structural 3)
                               (stdout initial_world)).
Proof.
  apply (short_input_raises reference_check oracle_sexpr 3
           [[1; 2; 3]; [4; 5]; [6; 7; 8]] initial_world).
  - lia.
  - reflexivity.
Defined.

Lemma given_ext (n : Z) (g g' : grid) :
  (forall i j, 0 <= i < n -> 0 <= j < n -> cell g i j = cell g' i j) ->
  given n g = given n g'.
Proof.
  intros H. apply map_ext_in. intros [i j] Hin.
  apply in_positions in Hin as [Hi Hj]. simpl. now rewrite (H i j Hi Hj).
Qed.

(** X3: the call reads the input only at the positions of the square: two
    inputs that both have every such position and agree there give the same
    result, the same assertions and the same output, whatever else they
    hold (extra rows, longer rows). *)
Theorem call_reads_only_the_square
  (check : list formula -> check_result) (sexpr : model -> string)
  (n : Z) (g g' : grid) (w : world) :
  covers n g = true -> covers n g' = true ->
  (forall i j, 0 <= i < n -> 0 <= j < n -> cell g i j = cell g' i j) ->
  complete_magic_square check sexpr n g w
  = complete_magic_square check sexpr n g' w.
Proof.
  intros Hg Hg' Hagree.
  destruct (Z_le_gt_dec n 0) as [Hle|Hgt].
  - unfold complete_magic_square, bindM, lift.
    now rewrite structural_constraints_raises.
  - rewrite !complete_magic_square_covers by (assumption || lia).
    unfold query. now rewrite (given_ext n g g' Hagree).
Qed.

Lemma call_reads_only_the_square_witness :
  complete_magic_square reference_check oracle_sexpr 1 [[0; 9]; [8; 7]]
                        initial_world
  = complete_magic_square reference_check oracle_sexpr 1 [[0]] initial_world.
Proof.
  apply (call_reads_only_the_square reference_check oracle_sexpr 1
           [[0; 9]; [8; 7]] [[0]] initial_world).
  - reflexivity.
  - reflexivity.
  - intros i j Hi Hj.
    replace i with 0 by lia. replace j with 0 by lia. reflexivity.
Defined.

(** ** What a call does to the solver and to the output *)

(** X4: whatever the size, the input and the solver, a call only appends:
    the solver keeps every earlier assertion and the output every earlier
    line; and the call prints something exactly when it returns a grid. *)
Theorem call_only_appends
  (check : list formula -> check_result) (sexpr : model -> string)
  (n : Z) (g : grid) (w : world) :
  let r := complete_magic_square check sexpr n g w in
  exists added lines,
    solver (snd r) = solver w ++ added /\
    stdout (snd r) = stdout w ++ lines /\
    (lines <> [] <-> exists sol, fst r = Ok (Some sol)).
Proof.
  cbv zeta.
  destruct (Z_le_gt_dec n 0) as [Hle|Hgt].
  - exists [], [].
    unfold complete_magic_square, bindM, lift.
    rewrite structural_constraints_raises by assumption. simpl.
    rewrite !app_nil_r. split; [reflexivity|]. split; [reflexivity|].
    split; [congruence|intros [sol H]; discriminate].
  - destruct (covers n g) eqn:Hg.
    + rewrite complete_magic_square_covers by (assumption || lia).
      unfold query.
      destruct (check _) as [m| |]; simpl.
      * exists (structural n ++ given n g),
               ["Satisfiability: sat"%string;
                ("SMT-LIB2 format:  " ++ sexpr m)%string].
        rewrite <- !app_assoc. split; [reflexivity|]. split; [reflexivity|].
        split; [intros _; now exists (grid_of m n)|discriminate].
      * exists (structural n ++ given n g), [].
        rewrite <- app_assoc, app_nil_r.
        split; [reflexivity|]. split; [reflexivity|].
        split; [congruence|intros [sol H]; discriminate].
      * exists (structural n ++ given n g), [].
        rewrite <- app_assoc, app_nil_r.
        split; [reflexivity|]. split; [reflexivity|].
        split; [congruence|intros [sol H]; discriminate].
    + unfold complete_magic_square, bindM, lift, solver_add.
      rewrite structural_constraints_eq by lia. simpl.
      rewrite incomplete_square_constraints_raises by assumption. simpl.
      exists (structural n), []. rewrite app_nil_r.
      split; [reflexivity|]. split; [reflexivity|].
      split; [congruence|intros [sol H]; discriminate].
Qed.

(** ** Printing the result *)

Lemma print_rows (rows : list (list Z)) (acc : M unit) (w w1 : world) :
  acc w = (Ok tt, w1) ->
  fold_left (fun acc row => let* _ := acc in print (str_list row)) rows acc w
  = (Ok tt, mkWorld (solver w1) (stdout w1 ++ map str_list rows)).
Proof.
  revert acc w1. induction rows as [|row rows IH]; intros acc w1 Hacc; simpl.
  - rewrite Hacc, app_nil_r. now destruct w1.
  - rewrite (IH _ (mkWorld (solver w1) (stdout w1 ++ [str_list row]))).
    + simpl. now rewrite <- app_assoc.
    + unfold bindM. now rewrite Hacc.
Qed.

Lemma bindM_print {A} (s : string) (k : unit -> M A) (w : world) :
  bindM (print s) k w = k tt (mkWorld (solver w) (stdout w ++ [s])).
Proof. reflexivity. Qed.

(** X5: lines 94-99 never raise and never touch the solver.  For a
    non-empty grid they print the header and then one line per row, in row
    order; for None, and for the empty list (which Python also counts as
    false), they print the no-solution line. *)
Theorem visualise_output (n : Z) (result : option grid) (w : world) :
  visualise n result w
  = (Ok tt,
     mkWorld (solver w)
             (stdout w ++
              match result with
              | Some (row :: rows) =>
                  solution_header n :: map str_list (row :: rows)
              | _ => [no_solution_message n]
              end)).
Proof.
  destruct result as [[|row rows]|]; try reflexivity.
  unfold visualise. rewrite bindM_print. cbv beta.
  fold (solution_header n).
  rewrite (print_rows (row :: rows) (ret tt) _
             (mkWorld (solver w) (stdout w ++ [solution_header n])))
    by reflexivity.
  simpl. now rewrite <- app_assoc.
Qed.

Lemma grid_of_nonempty (m : model) (n : Z) :
  1 <= n -> exists row rows, grid_of m n = row :: rows.
Proof.
  intros Hn. destruct (grid_of m n) as [|row rows] eqn:E.
  - destruct (grid_of_shape m n ltac:(lia)) as [Hlen _].
    rewrite E in Hlen. simpl in Hlen. lia.
  - now exists row, rows.
Qed.

(** X6: the whole program (lines 91-99, for any size and any input that has
    every position of the square) never raises.  When the verdict is sat it
    prints the verdict, the model text, the header and the grid_size rows
    of the grid, in this order; otherwise it prints the no-solution line
    alone.  A returned grid is never empty, so the truth test of line 94
    cannot take it for a missing solution. *)
Theorem program_output
  (check : list formula -> check_result) (sexpr : model -> string)
  (n : Z) (g : grid) (w : world) :
  1 <= n -> covers n g = true ->
  solve_and_visualise check sexpr n g w
  = (Ok tt,
     mkWorld (query w n g)
             (stdout w ++
              match check (query w n g) with
              | sat m =>
                  ["Satisfiability: sat"%string;
                   ("SMT-LIB2 format:  " ++ sexpr m)%string;
                   solution_header n]
                  ++ map str_list (grid_of m n)
              | _ => [no_solution_message n]
              end)).
Proof.
  intros Hn Hg. unfold solve_and_visualise, bindM.
  rewrite complete_magic_square_covers by assumption.
  destruct (check (query w n g)) as [m| |]; try reflexivity.
  destruct (grid_of_nonempty m n Hn) as [row [rows E]].
  rewrite E. unfold visualise. rewrite bindM_print. cbv beta.
  fold (solution_header n).
  set (w0 := mkWorld _ (_ ++ [solution_header n])).
  rewrite (print_rows (row :: rows) (ret tt) w0 w0) by reflexivity.
  unfold w0. simpl. now rewrite <- !app_assoc.
Qed.

Lemma program_output_witness :
  solve_and_visualise reference_check oracle_sexpr grid_size incomplete_square
                      initial_world
  = (Ok tt,
     mkWorld (query initial_world grid_size incomplete_square)
             ["Satisfiability: sat"%string;
              ("SMT-LIB2 format:  " ++ oracle_sexpr recorded_model)%string;
              "Magic Square (4x4):"%string;
              "[5, 6, 1, 10]"%string; "[6, 5, 10, 1]"%string;
              "[10, 1, 6, 5]"%string; "[1, 10, 5, 6]"%string]).
Proof.
  apply (program_output reference_check oracle_sexpr grid_size
           incomplete_square initial_world).
  - unfold grid_size. lia.
  - reflexivity.
Defined.

(** ** Calls that follow a call *)

Lemma assertions_after_call
  (check : list formula -> check_result) (sexpr : model -> string)
  (n : Z) (g : grid) (w : world) :
  1 <= n -> covers n g = true ->
  solver (snd (complete_magic_square check sexpr n g w)) = query w n g.
Proof.
  intros Hn Hg. rewrite complete_magic_square_covers by assumption.
  now destruct (check (query w n g)).
Qed.

(** X7: solving the same input again asks the solver an equivalent
    question: the assertions are added a second time, and a valuation
    satisfies the second query exactly when it satisfies the first. *)
Theorem same_input_again
  (check : list formula -> check_result) (sexpr : model -> string)
  (n : Z) (g : grid) (w : world) (m : model) :
  1 <= n -> covers n g = true ->
  let after := snd (complete_magic_square check sexpr n g w) in
  query after n g = query w n g ++ structural n ++ given n g /\
  models m (query after n g) = models m (query w n g).
Proof.
  intros Hn Hg. cbv zeta.
  assert (E : query (snd (complete_magic_square check sexpr n g w)) n g
              = query w n g ++ structural n ++ given n g).
  { unfold query at 1. rewrite assertions_after_call by assumption.
    now rewrite <- app_assoc. }
  split; [assumption|].
  rewrite E. unfold query. rewrite !models_app.
  destruct (models m (solver w)), (models m (structural n)),
    (models m (given n g)); reflexivity.
Qed.

Lemma same_input_again_witness :
  let after := snd (complete_magic_square reference_check oracle_sexpr
                      grid_size incomplete_square initial_world) in
  query after grid_size incomplete_square
  = query initial_world grid_size incomplete_square
      ++ structural grid_size ++ given grid_size incomplete_square /\
  models recorded_model (query after grid_size incomplete_square)
  = models recorded_model (query initial_world grid_size incomplete_square).
Proof.
  apply (same_input_again reference_check oracle_sexpr grid_size
           incomplete_square initial_world recorded_model).
  - unfold grid_size. lia.
  - reflexivity.
Defined.



(** X9: a non-zero given outside 1..grid_size^2 is not rejected as an
    error: under a sound solver the call returns None. *)
Theorem out_of_range_given_returns_none
  (check : list formula -> check_result) (sexpr : model -> string)
  (check_sound : sat_sound check)
  (n : Z) (g : grid) (w : world) (i j : Z) :
  1 <= n -> covers n g = true ->
  0 <= i < n -> 0 <= j < n ->
  cell g i j <> 0 -> ~ (1 <= cell g i j <= n ^ 2) ->
  returns (complete_magic_square check sexpr n g) w None.
Proof.
  intros Hn Hg Hi Hj Hnz Hout. unfold returns.
  rewrite complete_magic_square_covers by assumption.
  destruct (check (query w n g)) as [m| |] eqn:E; try reflexivity.
  exfalso. apply check_sound in E.
  apply query_models in E as [_ [Hst Hgiven]].
  pose proof (model_range m n Hst i j Hi Hj) as Hrange.
  assert (Hv : m (Cell i j) = cell g i j).
  { apply model_given; [|assumption].
    apply (models_in m _ _ Hgiven). now apply in_given. }
  lia.
Qed.

Lemma out_of_range_given_returns_none_witness :
  returns (complete_magic_square reference_check oracle_sexpr 3
             [[0; 0; 0]; [0; 10; 0]; [0; 0; 0]]) initial_world None.
Proof.
  apply (out_of_range_given_returns_none reference_check oracle_sexpr
           (oracle_check_sound [recorded_model])
           3 [[0; 0; 0]; [0; 10; 0]; [0; 0; 0]] initial_world 1 1).
  - lia.
  - reflexivity.
  - lia.
  - lia.
  - vm_compute. discriminate.
  - vm_compute. intros [_ H]. apply H. reflexivity.
Defined.

(** ** Small squares *)

(** X10: for grid_size 1 and 2, which the associative-column family does
    not reach, a returned grid has one value in all its cells: [[1]] for
    size 1, and four equal cells for size 2. *)
Theorem small_squares_are_constant
  (check : list formula -> check_result) (sexpr : model -> string)
  (check_sound : sat_sound check)
  (n : Z) (g : grid) (w : world) (sol : grid) :
  n <= 2 ->
  returns (complete_magic_square check sexpr n g) w (Some sol) ->
  (n = 1 /\ sol = [[1]]) \/
  (n = 2 /\ exists c, 1 <= c <= 4 /\ sol = [[c; c]; [c; c]]).
Proof.
  intros Hsmall H.
  apply (returned_model check sexpr check_sound) in H
    as [Hn [m [-> [Hst _]]]].
  assert (Hcases : n = 1 \/ n = 2) by lia.
  destruct Hcases as [-> | ->].
  - left. split; [reflexivity|].
    pose proof (model_range m 1 Hst 0 0 ltac:(lia) ltac:(lia)) as B.
    change (grid_of m 1) with [[m (Cell 0 0)]].
    replace (m (Cell 0 0)) with 1 by lia. reflexivity.
  - right. split; [reflexivity|].
    pose proof (model_range m 2 Hst 0 0 ltac:(lia) ltac:(lia)) as B.
    pose proof (model_row m 2 Hn Hst 1 ltac:(lia)) as R1.
    pose proof (model_column m 2 Hn Hst 0 ltac:(lia)) as C0.
    pose proof (model_column m 2 Hn Hst 1 ltac:(lia)) as C1.
    pose proof (model_diagonal m 2 Hn Hst) as D1.
    pose proof (model_antidiagonal m 2 Hn Hst) as D2.
    rewrite !grid_of_row_sum in R1 by lia.
    rewrite grid_of_row_sum in C0, C1, D1, D2 by lia.
    rewrite grid_of_column_sum in C0, C1 by lia.
    rewrite grid_of_diagonal_sum in D1 by lia.
    rewrite grid_of_antidiagonal_sum in D2 by lia.
    unfold row_vars, column_vars in R1, C0, C1, D1, D2.
    change (range 0 2) with [0; 1] in R1, C0, C1, D1, D2.
    simpl in R1, C0, C1, D1, D2.
    exists (m (Cell 0 0)). split; [assumption|].
    change (grid_of m 2)
      with [[m (Cell 0 0); m (Cell 0 1)]; [m (Cell 1 0); m (Cell 1 1)]].
    replace (m (Cell 0 1)) with (m (Cell 0 0)) by lia.
    replace (m (Cell 1 0)) with (m (Cell 0 0)) by lia.
    replace (m (Cell 1 1)) with (m (Cell 0 0)) by lia.
    reflexivity.
Qed.

Lemma small_squares_are_constant_witness :
  (1 = 1 /\ [[1]] = [[1]]) \/
  (1 = 2 /\ exists c, 1 <= c <= 4 /\ [[1]] = [[c; c]; [c; c]]).
Proof.
  apply (small_squares_are_constant (oracle_check [constant_model 1])
           oracle_sexpr (oracle_check_sound [constant_model 1])
           1 [[0]] initial_world [[1]]).
  - lia.
  - unfold returns. vm_compute. reflexivity.
Defined.

(** X11: in a returned 3x3 grid the magic constant is three times the
    centre cell and every pair of opposite cells of the first associative
    family adds up to twice the centre. *)
Theorem three_by_three_centre
  (check : list formula -> check_result) (sexpr : model -> string)
  (check_sound : sat_sound check)
  (g : grid) (w : world) (sol : grid) :
  returns (complete_magic_square check sexpr 3 g) w (Some sol) ->
  row_sum sol 0 = 3 * cell sol 1 1 /\
  (forall i, 0 <= i < 3 ->
     cell sol 0 i + cell sol 2 (2 - i) = 2 * cell sol 1 1).
Proof.
  intros H.
  apply (returned_model check sexpr check_sound) in H
    as [Hn [m [-> [Hst _]]]].
  pose proof (model_row m 3 Hn Hst 1 ltac:(lia)) as R1.
  pose proof (model_row m 3 Hn Hst 2 ltac:(lia)) as R2.
  pose proof (model_column m 3 Hn Hst 1 ltac:(lia)) as C1.
  pose proof (model_diagonal m 3 Hn Hst) as D1.
  pose proof (model_antidiagonal m 3 Hn Hst) as D2.
  pose proof (model_associative_row m 3 Hst 0 ltac:(lia)) as A0.
  pose proof (model_associative_row m 3 Hst 1 ltac:(lia)) as A1.
  pose proof (model_associative_row m 3 Hst 2 ltac:(lia)) as A2.
  simpl in A0, A1, A2.
  rewrite !grid_of_row_sum in R1 by lia.
  rewrite !grid_of_row_sum in R2 by lia.
  rewrite grid_of_row_sum in C1, D1, D2 by lia.
  rewrite grid_of_column_sum in C1 by lia.
  rewrite grid_of_diagonal_sum in D1 by lia.
  rewrite grid_of_antidiagonal_sum in D2 by lia.
  unfold row_vars, column_vars in R1, R2, C1, D1, D2.
  change (range 0 3) with [0; 1; 2] in R1, R2, C1, D1, D2.
  simpl in R1, R2, C1, D1, D2.
  split.
  - rewrite grid_of_row_sum, grid_of_cell by lia.
    change (eval m (SumOf (row_vars 3 0)))
      with (m (Cell 0 0) + (m (Cell 0 1) + (m (Cell 0 2) + 0))).
    lia.
  - intros i Hi. rewrite !grid_of_cell by lia.
    assert (Hc : i = 0 \/ i = 1 \/ i = 2) by lia.
    destruct Hc as [-> | [-> | ->]].
    + change (2 - 0) with 2. lia.
    + change (2 - 1) with 1. lia.
    + change (2 - 2) with 0. lia.
Qed.

Lemma three_by_three_centre_witness :
  row_sum [[2; 2; 2]; [2; 2; 2]; [2; 2; 2]] 0 = 3 * 2 /\
  (forall i, 0 <= i < 3 ->
     cell [[2; 2; 2]; [2; 2; 2]; [2; 2; 2]] 0 i
     + cell [[2; 2; 2]; [2; 2; 2]; [2; 2; 2]] 2 (2 - i) = 2 * 2).
Proof.
  apply (three_by_three_centre (oracle_check [constant_model 2])
           oracle_sexpr (oracle_check_sound [constant_model 2])
           (blank_square 3) initial_world
           [[2; 2; 2]; [2; 2; 2]; [2; 2; 2]]).
  unfold returns. vm_compute. reflexivity.
Defined.

(** ** The assertions and the checker [is_solution] say the same *)

Lemma cells_of_grid_of (m : model) (n : Z) (f h : Z -> Z) (l : list Z) :
  (forall k, In k l -> 0 <= f k < n /\ 0 <= h k < n) ->
  map (fun k => cell (grid_of m n) (f k) (h k)) l
  = map (fun k => m (Cell (f k) (h k))) l.
Proof.
  intros H. apply map_ext_in. intros k Hk.
  destruct (H k Hk). now apply grid_of_cell.
Qed.

Lemma map_nth_range {A} (l : list A) (d : A) :
  map (fun i => nth (Z.to_nat i) l d) (range 0 (Z.of_nat (List.length l))) = l.
Proof.
  apply (nth_ext _ _ d d).
  - rewrite length_map, length_range. lia.
  - intros k Hk. rewrite length_map, length_range in Hk.
    rewrite <- (Nat2Z.id k) at 1.
    rewrite (nth_map_range (fun i => nth (Z.to_nat i) l d)) by lia.
    now rewrite Nat2Z.id.
Qed.

(** Reading the cells off a well-shaped grid and decoding them again gives
    the grid back. *)
Lemma block_of_square (n : Z) (sol : grid) :
  square_shape n sol -> block n sol = sol.
Proof.
  intros [Hlen Hrows]. unfold block, cell.
  transitivity (map (fun i => nth (Z.to_nat i) sol []) (range 0 n)).
  - apply map_ext_in. intros i Hi. apply in_range in Hi.
    assert (Hrow : Z.of_nat (List.length (nth (Z.to_nat i) sol [])) = n).
    { rewrite Forall_forall in Hrows. apply Hrows. apply nth_In. lia. }
    rewrite <- Hrow. apply map_nth_range.
  - rewrite <- Hlen. apply map_nth_range.
Qed.

Lemma grid_of_model_of_grid (n : Z) (sol : grid) (s : Z) :
  square_shape n sol -> grid_of (model_of_grid sol s) n = sol.
Proof. intros H. now apply block_of_square. Qed.

Lemma solution_is_model (n : Z) (g sol : grid) :
  is_solution n g sol = true ->
  models (model_of_grid sol (pair_sum n sol)) (structural n ++ given n g)
  = true.
Proof.
  unfold is_solution. intros H.
  apply andb_true_iff in H as [H Hgiven].
  apply andb_true_iff in H as [H Hacol].
  apply andb_true_iff in H as [H Harow].
  apply andb_true_iff in H as [H Hanti].
  apply andb_true_iff in H as [H Hdiag].
  apply andb_true_iff in H as [H Hcol].
  apply andb_true_iff in H as [Hrange Hrow].
  rewrite forallb_forall in Hgiven, Hacol, Harow, Hcol, Hrange, Hrow.
  set (M := model_of_grid sol (pair_sum n sol)).
  apply forallb_forall. intros f Hf.
  apply in_app_or in Hf as [Hf|Hf]; [unfold structural in Hf|].
  - repeat (apply in_app_or in Hf as [Hf|Hf]).
    + apply in_map_iff in Hf as [[i j] [<- Hin]]. exact (Hrange _ Hin).
    + apply in_map_iff in Hf as [i [<- Hin]].
      unfold row_formula, row_vars. cbn [holds].
      rewrite (eval_sum_vars M (fun j => Cell i j)),
              (eval_sum_vars M (fun j => Cell 0 j)).
      exact (Hrow _ Hin).
    + apply in_map_iff in Hf as [j [<- Hin]].
      unfold column_formula, column_vars, row_vars. cbn [holds].
      rewrite (eval_sum_vars M (fun i => Cell i j)),
              (eval_sum_vars M (fun j => Cell 0 j)).
      exact (Hcol _ Hin).
    + destruct Hf as [<-|[<-|[]]].
      * unfold diagonal_formula, row_vars. cbn [holds].
        rewrite (eval_sum_vars M (fun i => Cell i i)),
                (eval_sum_vars M (fun j => Cell 0 j)).
        exact Hdiag.
      * unfold antidiagonal_formula, row_vars. cbn [holds].
        rewrite (eval_sum_vars M (fun i => Cell (n - i - 1) i)),
                (eval_sum_vars M (fun j => Cell 0 j)).
        exact Hanti.
    + apply in_map_iff in Hf as [i [<- Hin]]. exact (Harow _ Hin).
    + apply in_map_iff in Hf as [i [<- Hin]]. exact (Hacol _ Hin).
  - apply in_map_iff in Hf as [[i j] [<- Hin]].
    specialize (Hgiven _ Hin). simpl in Hgiven. simpl.
    now destruct (cell g i j =? 0).
Qed.

Lemma model_is_solution (m : model) (n : Z) (g : grid) :
  1 <= n ->
  models m (structural n) = true ->
  (forall i j, 0 <= i < n -> 0 <= j < n ->
               holds m (given_formula g (i, j)) = true) ->
  is_solution n g (grid_of m n) = true.
Proof.
  intros Hn Hst Hgiven.
  assert (Hrow0 : Zsum (map (fun j => cell (grid_of m n) 0 j) (range 0 n))
                  = eval m (SumOf (row_vars n 0))).
  { rewrite (cells_of_grid_of m n (fun _ => 0) (fun j => j))
      by (intros k Hk; apply in_range in Hk; lia).
    unfold row_vars. now rewrite (eval_sum_vars m (fun j => Cell 0 j)). }
  assert (Hpair : pair_sum n (grid_of m n) = m AssociativeSum).
  { unfold pair_sum. rewrite !grid_of_cell by lia.
    pose proof (model_associative_row m n Hst 0 ltac:(lia)) as A0.
    now replace (n - 0 - 1) with (n - 1) in A0 by lia. }
  unfold is_solution. rewrite Hrow0, Hpair.
  repeat (apply andb_true_iff; split).
  - apply forallb_forall. intros [i j] Hin.
    apply in_positions in Hin as [Hi Hj]. rewrite grid_of_cell by assumption.
    pose proof (model_range m n Hst i j Hi Hj).
    apply andb_true_iff. split; apply Z.leb_le; lia.
  - apply forallb_forall. intros i Hi. apply in_range in Hi.
    rewrite (cells_of_grid_of m n (fun _ => i) (fun j => j))
      by (intros k Hk; apply in_range in Hk; lia).
    rewrite <- (eval_sum_vars m (fun j => Cell i j)).
    exact (models_in _ _ _ Hst (in_structural_row n i Hi)).
  - apply forallb_forall. intros j Hj. apply in_range in Hj.
    rewrite (cells_of_grid_of m n (fun i => i) (fun _ => j))
      by (intros k Hk; apply in_range in Hk; lia).
    rewrite <- (eval_sum_vars m (fun i => Cell i j)).
    exact (models_in _ _ _ Hst (in_structural_column n j Hj)).
  - rewrite (cells_of_grid_of m n (fun i => i) (fun i => i))
      by (intros k Hk; apply in_range in Hk; lia).
    rewrite <- (eval_sum_vars m (fun i => Cell i i)).
    exact (models_in _ _ _ Hst (in_structural_diagonal n)).
  - rewrite (cells_of_grid_of m n (fun i => n - i - 1) (fun i => i))
      by (intros k Hk; apply in_range in Hk; lia).
    rewrite <- (eval_sum_vars m (fun i => Cell (n - i - 1) i)).
    exact (models_in _ _ _ Hst (in_structural_antidiagonal n)).
  - apply forallb_forall. intros i Hi. apply in_range in Hi.
    rewrite !grid_of_cell by lia. apply Z.eqb_eq.
    now apply model_associative_row.
  - apply forallb_forall. intros i Hi. apply in_range in Hi.
    rewrite !grid_of_cell by lia. apply Z.eqb_eq.
    now apply model_associative_column.
  - apply forallb_forall. intros [i j] Hin.
    apply in_positions in Hin as [Hi Hj]. rewrite grid_of_cell by assumption.
    specialize (Hgiven i j Hi Hj). simpl in Hgiven.
    destruct (cell g i j =? 0); [reflexivity|exact Hgiven].
Qed.

(** X12: a grid returned under a sound solver, for any size, input and
    earlier solver state, has grid_size rows of grid_size cells and passes
    the executable checker [is_solution]: range, row, column and diagonal
    sums, both associative families and the givens, all at once. *)
Theorem returned_grid_is_solution
  (check : list formula -> check_result) (sexpr : model -> string)
  (check_sound : sat_sound check)
  (n : Z) (g : grid) (w : world) (sol : grid) :
  returns (complete_magic_square check sexpr n g) w (Some sol) ->
  square_shape n sol /\ is_solution n g sol = true.
Proof.
  intros H.
  apply (returned_model check sexpr check_sound) in H
    as [Hn [m [-> [Hst Hgiven]]]].
  split; [apply grid_of_shape; lia|now apply model_is_solution].
Qed.

Lemma returned_grid_is_solution_witness :
  square_shape grid_size recorded_solution /\
  is_solution grid_size incomplete_square recorded_solution = true.
Proof.
  exact (returned_grid_is_solution reference_check oracle_sexpr
           (oracle_check_sound [recorded_model])
           grid_size incomplete_square initial_world recorded_solution
           reference_run).
Defined.

(** X13: conversely the encoding loses no solution.  From a fresh solver,
    any grid_size x grid_size grid that passes [is_solution] for the input
    is what the call returns when the solver proposes that grid (with the
    corner pair sum as associative sum). *)
Theorem every_solution_is_returnable
  (sexpr : model -> string) (n : Z) (g sol : grid) :
  1 <= n -> covers n g = true ->
  square_shape n sol -> is_solution n g sol = true ->
  returns (complete_magic_square
             (oracle_check [model_of_grid sol (pair_sum n sol)]) sexpr n g)
          initial_world (Some sol).
Proof.
  intros Hn Hg Hshape Hsol. unfold returns.
  rewrite complete_magic_square_covers by assumption.
  assert (Hq : models (model_of_grid sol (pair_sum n sol))
                      (query initial_world n g) = true).
  { change (query initial_world n g) with (structural n ++ given n g).
    now apply solution_is_model. }
  unfold oracle_check. simpl find. rewrite Hq. simpl.
  now rewrite grid_of_model_of_grid.
Qed.

Lemma every_solution_is_returnable_witness :
  returns (complete_magic_square
             (oracle_check [model_of_grid [[8; 1; 6]; [3; 5; 7]; [4; 9; 2]]
                              (pair_sum 3 [[8; 1; 6]; [3; 5; 7]; [4; 9; 2]])])
             oracle_sexpr 3 [[8; 0; 0]; [0; 0; 0]; [0; 0; 2]])
          initial_world (Some [[8; 1; 6]; [3; 5; 7]; [4; 9; 2]]).
Proof.
  apply (every_solution_is_returnable oracle_sexpr 3
           [[8; 0; 0]; [0; 0; 0]; [0; 0; 2]]
           [[8; 1; 6]; [3; 5; 7]; [4; 9; 2]]).
  - lia.
  - reflexivity.
  - split; [reflexivity|repeat constructor].
  - reflexivity.
Defined.

(** ** The puzzle with nothing given *)

Lemma blank_square_shape (n : Z) : 0 <= n -> square_shape n (blank_square n).
Proof.
  intros H. unfold square_shape, blank_square. split.
  - rewrite length_map, length_range. lia.
  - apply Forall_forall. intros row Hrow.
    apply in_map_iff in Hrow as [i [<- _]].
    rewrite length_map, length_range. lia.
Qed.

Lemma blank_square_cell (n i j : Z) :
  0 <= i < n -> 0 <= j < n -> cell (blank_square n) i j = 0.
Proof.
  intros Hi Hj. unfold cell, blank_square.
  rewrite (nth_map_range (fun _ => map (fun _ => 0) (range 0 n))) by assumption.
  now rewrite (nth_map_range (fun _ => 0)).
Qed.

Lemma blank_square_given (m : model) (n : Z) :
  models m (given n (blank_square n)) = true.
Proof.
  apply forallb_forall. intros f Hf.
  apply in_map_iff in Hf as [[i j] [<- Hin]].
  apply in_positions in Hin as [Hi Hj]. simpl.
  now rewrite blank_square_cell.
Qed.

(** X14: with nothing given and a fresh solver the puzzle has a solution
    for every grid_size >= 1 (every cell 1, for one), so a solver that
    finds a model when there is one returns a grid for the all-zero input of
    any size. *)
Theorem blank_square_is_solved
  (check : list formula -> check_result) (sexpr : model -> string)
  (n : Z) :
  1 <= n ->
  decides check (query initial_world n (blank_square n)) ->
  satisfiable (query initial_world n (blank_square n)) /\
  exists sol,
    returns (complete_magic_square check sexpr n (blank_square n))
            initial_world (Some sol).
Proof.
  intros Hn Hdec.
  assert (Hsat : satisfiable (query initial_world n (blank_square n))).
  { exists (constant_model 1).
    change (query initial_world n (blank_square n))
      with (structural n ++ given n (blank_square n)).
    rewrite models_app.
    rewrite constant_model_structural by nia.
    now rewrite blank_square_given. }
  split; [assumption|].
  destruct (Hdec Hsat) as [m Hm]. exists (grid_of m n). unfold returns.
  rewrite complete_magic_square_covers
    by (try assumption; apply square_shape_covers, blank_square_shape; lia).
  now rewrite Hm.
Qed.

Lemma blank_square_is_solved_witness :
  satisfiable (query initial_world 5 (blank_square 5)) /\
  exists sol,
    returns (complete_magic_square (oracle_check [constant_model 1])
               oracle_sexpr 5 (blank_square 5))
            initial_world (Some sol).
Proof.
  apply (blank_square_is_solved (oracle_check [constant_model 1])
           oracle_sexpr 5).
  - lia.
  - intros _. exists (constant_model 1). vm_compute. reflexivity.
Defined.

(** ** Sizes and sums *)

Lemma length_positions (n : Z) :
  0 <= n -> Z.of_nat (List.length (positions n)) = n * n.
Proof.
  intros H. unfold positions. rewrite length_prod, length_range. lia.
Qed.

Lemma length_structural (n : Z) :
  1 <= n ->
  Z.of_nat (List.length (structural n)) = n * n + 3 * n + 2 + Z.max 0 (n - 2).
Proof.
  intros H. unfold structural.
  rewrite !length_app, !length_map, !length_range. simpl List.length.
  pose proof (length_positions n ltac:(lia)). lia.
Qed.

(** X15: a call on an input that has every position of the square leaves
    2 n^2 + 3 n + 2 + max(0, n - 2) more assertions in the solver than it
    found (n = grid_size), whether it returns a grid or None; nothing is
    ever retracted, so the solver grows by that much with every call. *)
Theorem assertions_added_by_a_call
  (check : list formula -> check_result) (sexpr : model -> string)
  (n : Z) (g : grid) (w : world) :
  1 <= n -> covers n g = true ->
  Z.of_nat (List.length
              (solver (snd (complete_magic_square check sexpr n g w))))
  = Z.of_nat (List.length (solver w))
    + (2 * n * n + 3 * n + 2 + Z.max 0 (n - 2)).
Proof.
  intros Hn Hg. rewrite assertions_after_call by assumption.
  unfold query, given. rewrite !length_app, length_map.
  pose proof (length_structural n Hn).
  pose proof (length_positions n ltac:(lia)). lia.
Qed.

Lemma assertions_added_by_a_call_witness :
  Z.of_nat (List.length
              (solver (snd (complete_magic_square reference_check oracle_sexpr
                              grid_size incomplete_square initial_world))))
  = Z.of_nat (List.length (solver initial_world))
    + (2 * 4 * 4 + 3 * 4 + 2 + Z.max 0 (4 - 2)).
Proof.
  apply (assertions_added_by_a_call reference_check oracle_sexpr grid_size
           incomplete_square initial_world).
  - unfold grid_size. lia.
  - reflexivity.
Defined.

Lemma Zsum_bounds (l : list Z) (lo hi : Z) :
  Forall (fun v => lo <= v <= hi) l ->
  Z.of_nat (List.length l) * lo <= Zsum l <= Z.of_nat (List.length l) * hi.
Proof.
  induction 1 as [|v l Hv _ IH]; [simpl; lia|].
  change (Zsum (v :: l)) with (v + Zsum l).
  change (List.length (v :: l)) with (S (List.length l)). lia.
Qed.

(** X16: the magic constant of a returned grid lies between grid_size and
    grid_size^3, and the pair sum of its two corners between 2 and
    2 grid_size^2: the range assertion on the cells is the only bound on
    either. *)
Theorem magic_constant_bounds
  (check : list formula -> check_result) (sexpr : model -> string)
  (check_sound : sat_sound check)
  (n : Z) (g : grid) (w : world) (sol : grid) :
  returns (complete_magic_square check sexpr n g) w (Some sol) ->
  n <= row_sum sol 0 <= n * n ^ 2 /\
  2 <= pair_sum n sol <= 2 * n ^ 2.
Proof.
  intros H.
  apply (returned_model check sexpr check_sound) in H
    as [Hn [m [-> [Hst _]]]].
  split.
  - unfold row_sum. change (Z.to_nat 0) with 0%nat.
    pose proof (grid_of_row m n 0 ltac:(lia)) as Hrow.
    change (Z.to_nat 0) with 0%nat in Hrow. rewrite Hrow.
    pose proof (Zsum_bounds (map (fun j => m (Cell 0 j)) (range 0 n)) 1 (n ^ 2))
      as Hb.
    rewrite length_map, length_range in Hb.
    replace (Z.of_nat (Z.to_nat (n - 0))) with n in Hb by lia.
    assert (Hall : Forall (fun v => 1 <= v <= n ^ 2)
                          (map (fun j => m (Cell 0 j)) (range 0 n))).
    { apply Forall_forall. intros v Hv.
      apply in_map_iff in Hv as [j [<- Hj]]. apply in_range in Hj.
      apply model_range; [assumption|lia|lia]. }
    specialize (Hb Hall). lia.
  - unfold pair_sum. rewrite !grid_of_cell by lia.
    pose proof (model_range m n Hst 0 0 ltac:(lia) ltac:(lia)).
    pose proof (model_range m n Hst (n - 1) (n - 1) ltac:(lia) ltac:(lia)).
    lia.
Qed.

Lemma magic_constant_bounds_witness :
  4 <= row_sum recorded_solution 0 <= 4 * 4 ^ 2 /\
  2 <= pair_sum 4 recorded_solution <= 2 * 4 ^ 2.
Proof.
  exact (magic_constant_bounds reference_check oracle_sexpr
           (oracle_check_sound [recorded_model])
           grid_size incomplete_square initial_world recorded_solution
           reference_run).
Defined.

Lemma NoDup_range (lo hi : Z) : NoDup (range lo hi).
Proof.
  unfold range. apply NoDup_map_NoDup_ForallPairs; [|apply seq_NoDup].
  intros a b _ _ H. lia.
Qed.

(** Summing over the indices backwards gives the same sum. *)
Lemma Zsum_reverse_index (f : Z -> Z) (n : Z) :
  Zsum (map (fun i => f (n - i - 1)) (range 0 n)) = Zsum (map f (range 0 n)).
Proof.
  rewrite <- (map_map (fun i => n - i - 1) f).
  apply Zsum_Permutation, Permutation_map, NoDup_Permutation_bis.
  - apply NoDup_map_NoDup_ForallPairs; [|apply NoDup_range].
    intros a b _ _ H. lia.
  - now rewrite length_map.
  - intros x Hx. apply in_map_iff in Hx as [i [<- Hi]].
    apply in_range in Hi. apply in_range. lia.
Qed.

Lemma Zsum_map_add (a b : Z -> Z) (l : list Z) :
  Zsum (map (fun i => a i + b i) l) = Zsum (map a l) + Zsum (map b l).
Proof. induction l as [|x l IH]; simpl; [reflexivity|]. rewrite IH. lia. Qed.

Lemma Zsum_map_const (c : Z) (l : list Z) :
  Zsum (map (fun _ => c) l) = Z.of_nat (List.length l) * c.
Proof.
  induction l as [|x l IH]; [reflexivity|].
  change (Zsum (map (fun _ => c) (x :: l))) with (c + Zsum (map (fun _ => c) l)).
  change (List.length (x :: l)) with (S (List.length l)). rewrite IH. lia.
Qed.

Lemma model_pairs_and_magic (m : model) (n : Z) :
  1 <= n -> models m (structural n) = true ->
  n * m AssociativeSum = 2 * eval m (SumOf (row_vars n 0)).
Proof.
  intros Hn Hst.
  assert (Hall : Zsum (map (fun i => m (Cell 0 i) + m (Cell (n - 1) (n - i - 1)))
                           (range 0 n))
                 = n * m AssociativeSum).
  { rewrite (map_ext_in _ (fun _ => m AssociativeSum)).
    - rewrite Zsum_map_const, length_range. lia.
    - intros i Hi. apply in_range in Hi. now apply model_associative_row. }
  rewrite Zsum_map_add in Hall.
  rewrite (Zsum_reverse_index (fun j => m (Cell (n - 1) j)) n) in Hall.
  pose proof (models_in _ _ _ Hst (in_structural_row n (n - 1) ltac:(lia)))
    as Hlast.
  unfold row_formula in Hlast. cbn [holds] in Hlast. apply Z.eqb_eq in Hlast.
  unfold row_vars in Hlast |- *.
  rewrite (eval_sum_vars m (fun j => Cell (n - 1) j)) in Hlast.
  rewrite (eval_sum_vars m (fun j => Cell 0 j)) in Hlast |- *.
  lia.
Qed.

(** X17: in every returned grid, grid_size times the associative pair sum
    (the sum of the two corners) is twice the magic constant: the first
    associative family pairs row 0 with the last row read backwards. *)
Theorem pair_sum_and_magic_constant
  (check : list formula -> check_result) (sexpr : model -> string)
  (check_sound : sat_sound check)
  (n : Z) (g : grid) (w : world) (sol : grid) :
  returns (complete_magic_square check sexpr n g) w (Some sol) ->
  n * pair_sum n sol = 2 * row_sum sol 0.
Proof.
  intros H.
  apply (returned_model check sexpr check_sound) in H
    as [Hn [m [-> [Hst _]]]].
  rewrite grid_of_row_sum by lia.
  rewrite <- (model_pairs_and_magic m n Hn Hst).
  unfold pair_sum. rewrite !grid_of_cell by lia.
  pose proof (model_associative_row m n Hst 0 ltac:(lia)) as A0.
  replace (n - 0 - 1) with (n - 1) in A0 by lia.
  now rewrite A0.
Qed.

Lemma pair_sum_and_magic_constant_witness :
  4 * pair_sum 4 recorded_solution = 2 * row_sum recorded_solution 0.
Proof.
  exact (pair_sum_and_magic_constant reference_check oracle_sexpr
           (oracle_check_sound [recorded_model])
           grid_size incomplete_square initial_world recorded_solution
           reference_run).
Defined.

(** ** How far the two associative families reach *)

(** The facts a model of the structural assertions gives about rows,
    columns, diagonals and pairs of index [k], when [k] is inside the
    square. *)
Ltac index_facts m n Hn Hst k :=
  try (let R := fresh "R" in
       pose proof (models_in _ _ _ Hst (in_structural_row n k ltac:(lia))) as R;
       cbn [holds row_formula] in R; apply Z.eqb_eq in R;
       unfold row_formula, row_vars in R);
  try (let C := fresh "C" in
       pose proof (models_in _ _ _ Hst (in_structural_column n k ltac:(lia)))
         as C;
       apply Z.eqb_eq in C; unfold column_vars, row_vars in C);
  try (let A := fresh "A" in
       pose proof (model_associative_row m n Hst k ltac:(lia)) as A);
  try (let B := fresh "B" in
       pose proof (model_associative_column m n Hst k ltac:(lia)) as B).

Ltac structural_facts m n Hn Hst idx :=
  index_facts m n Hn Hst 0; index_facts m n Hn Hst 1;
  index_facts m n Hn Hst 2; index_facts m n Hn Hst 3;
  index_facts m n Hn Hst 4;
  (let D := fresh "D" in
   pose proof (models_in _ _ _ Hst (in_structural_diagonal n)) as D;
   apply Z.eqb_eq in D; unfold row_vars in D);
  (let E := fresh "E" in
   pose proof (models_in _ _ _ Hst (in_structural_antidiagonal n)) as E;
   apply Z.eqb_eq in E; unfold row_vars in E);
  change (range 0 n) with idx in *;
  simpl in *.

Ltac split_index i bound :=
  let H := fresh in
  assert (H : i = 0 \/ i = 1 \/ i = 2 \/ i = 3 \/ i = 4) by lia;
  destruct H as [-> | [-> | [-> | [-> | ->]]]]; try lia.

Lemma model_associative (m : model) (n : Z) (i j : Z) :
  1 <= n <= 5 -> models m (structural n) = true ->
  0 <= i < n -> 0 <= j < n ->
  m (Cell i j) + m (Cell (n - 1 - i) (n - 1 - j))
  = m (Cell 0 0) + m (Cell (n - 1) (n - 1)).
Proof.
  intros Hn Hst Hi Hj.
  assert (Hc : n = 1 \/ n = 2 \/ n = 3 \/ n = 4 \/ n = 5) by lia.
  destruct Hc as [-> | [-> | [-> | [-> | ->]]]].
  - structural_facts m 1 Hn Hst [0].
    split_index i 1; split_index j 1; simpl; lia.
  - structural_facts m 2 Hn Hst [0; 1].
    split_index i 2; split_index j 2; simpl; lia.
  - structural_facts m 3 Hn Hst [0; 1; 2].
    split_index i 3; split_index j 3; simpl; lia.
  - structural_facts m 4 Hn Hst [0; 1; 2; 3].
    split_index i 4; split_index j 4; simpl; lia.
  - structural_facts m 5 Hn Hst [0; 1; 2; 3; 4].
    split_index i 5; split_index j 5; simpl; lia.
Qed.

(** X18: up to grid_size 5 the two border families are enough: in every
    returned grid each cell and the cell opposite to it through the centre
    add up to the same sum, that of the two corners.  The square is
    associative although only its outer rows and columns are paired by the
    assertions. *)
Theorem returned_grid_is_associative
  (check : list formula -> check_result) (sexpr : model -> string)
  (check_sound : sat_sound check)
  (n : Z) (g : grid) (w : world) (sol : grid) (i j : Z) :
  n <= 5 ->
  returns (complete_magic_square check sexpr n g) w (Some sol) ->
  0 <= i < n -> 0 <= j < n ->
  cell sol i j + cell sol (n - 1 - i) (n - 1 - j) = pair_sum n sol.
Proof.
  intros Hsmall H Hi Hj.
  apply (returned_model check sexpr check_sound) in H
    as [Hn [m [-> [Hst _]]]].
  unfold pair_sum. rewrite !grid_of_cell by lia.
  apply model_associative; (assumption || lia).
Qed.

Lemma returned_grid_is_associative_witness :
  cell recorded_solution 1 2 + cell recorded_solution (4 - 1 - 1) (4 - 1 - 2)
  = pair_sum 4 recorded_solution.
Proof.
  apply (returned_grid_is_associative reference_check oracle_sexpr
           (oracle_check_sound [recorded_model])
           grid_size incomplete_square initial_world recorded_solution 1 2).
  - unfold grid_size. lia.
  - exact reference_run.
  - unfold grid_size. lia.
  - unfold grid_size. lia.
Defined.

(** X19: from grid_size 6 on this is no longer forced: for the blank 6x6
    input and a fresh solver, the call can return a grid, accepted by a
    sound solver, in which cells (1,1) and (4,4) add up to 2 while the
    corners add up to 4. *)
Theorem six_by_six_not_associative :
  let check := oracle_check [model_of_grid six_by_six (pair_sum 6 six_by_six)] in
  sat_sound check /\
  returns (complete_magic_square check oracle_sexpr 6 (blank_square 6))
          initial_world (Some six_by_six) /\
  is_solution 6 (blank_square 6) six_by_six = true /\
  cell six_by_six 1 1 + cell six_by_six 4 4 <> pair_sum 6 six_by_six.
Proof.
  cbv zeta. split; [apply oracle_check_sound|].
  split; [unfold returns; vm_compute; reflexivity|].
  split; [vm_compute; reflexivity|].
  vm_compute. discriminate.
Qed.
